(** * SigilWire: the emoji codec of [SigilWire.py]

    A shallow embedding of the codec core of [SigilWire.py] (alphabet
    tables, the nibble and base-64 codecs, the two scheme detectors, the
    decode dispatch of the command line and of the Auto-Detect button), and
    the properties of the specification stated and settled over it.

    Conventions.
    - A Python [str] is a list of code points ([N]); a one-character string
      [ch] is the singleton list.
    - [bytes] is a list of [N] below 256.
    - A [dict] is a [gmap]; a dict comprehension inserts its items from
      left to right, so a repeated key keeps the value inserted last.
    - An exception caught by the [try]/[except] of a codec function shows
      up as the [Failure] the handler returns. *)

From Stdlib Require Import NArith ZArith List Lia Bool.
From stdpp Require Import base option list gmap.

Local Open Scope N_scope.

(** ** Text and bytes *)

Abbreviation codepoint := N (only parsing).
Abbreviation str := (list N) (only parsing).
Abbreviation bytes := (list N) (only parsing).

Definition max_codepoint : N := 0x10FFFF.

(** The values a [bytes] object can hold. *)
Definition is_bytes (b : bytes) : Prop := Forall (λ x, x < 256) b.

(** [str.isspace] on one code point: the table of CPython's
    [_PyUnicode_IsWhitespace]. *)
Definition cp_isspace (c : codepoint) : bool :=
  ((0x09 <=? c) && (c <=? 0x0D)) || ((0x1C <=? c) && (c <=? 0x20))
  || (c =? 0x85) || (c =? 0xA0) || (c =? 0x1680)
  || ((0x2000 <=? c) && (c <=? 0x200A))
  || (c =? 0x2028) || (c =? 0x2029) || (c =? 0x202F) || (c =? 0x205F)
  || (c =? 0x3000).

(** [s.isspace()]: every character is whitespace and there is at least one. *)
Definition isspace (s : str) : bool :=
  match s with
  | [] => false
  | _ => forallb cp_isspace s
  end.

(** ** Dictionaries built by comprehension *)

(** [{k: v for ...}] over the items [l], in order: later items overwrite. *)
Definition dict_of {K V} `{Countable K} (l : list (K * V)) : gmap K V :=
  foldl (λ m kv, <[kv.1 := kv.2]> m) ∅ l.

(** [range(n)] as indices. *)
Definition range (n : nat) : list nat := seq 0 n.

(** ** Alphabets *)

Definition HEX_EMOJI_16 : list str :=
  [ [128512]; [128513]; [128514]; [128515]; [128516]; [128517]; [128518]; [128521];
    [128522]; [128578]; [128579]; [128523]; [128526]; [128525]; [128536]; [128535] ].

(** [f"{i:x}"] for [i] in [range(16)]: one lower-case hex digit. *)
Definition hex_digits : str :=
  [48; 49; 50; 51; 52; 53; 54; 55; 56; 57; 97; 98; 99; 100; 101; 102].

Definition fmt_x (i : nat) : str := [nth i hex_digits 0].

Definition HEX_MAP : gmap str str :=
  dict_of (map (λ i, (fmt_x i, nth i HEX_EMOJI_16 [])) (range 16)).

(** [HEX_MAP.items()]: the items in insertion order (the 16 keys differ). *)
Definition HEX_MAP_items : list (str * str) :=
  map (λ i, (fmt_x i, nth i HEX_EMOJI_16 [])) (range 16).

Definition REV_HEX_MAP : gmap str str :=
  dict_of (map (λ kv : str * str, (kv.2, kv.1)) HEX_MAP_items).

Definition BASE64_EMOJI_64 : list str :=
  [ [128512]; [128513]; [128514]; [128515]; [128516]; [128517]; [128518]; [128521];
    [128522]; [128578]; [128579]; [128523]; [128526]; [128525]; [128536]; [128535];
    [128537]; [128538]; [129392]; [129321]; [129303]; [129300]; [129320]; [128528];
    [128529]; [128566]; [128580]; [128527]; [128547]; [128549]; [128558]; [129296];
    [128554]; [128555]; [129393]; [128564]; [128524]; [128539]; [128540]; [129322];
    [128541]; [129303]; [129325]; [129323]; [129317]; [128556]; [128532]; [128533];
    [128577]; [9785; 65039]; [128543]; [128548]; [128546]; [128557]; [128561]; [128552];
    [128560]; [128559]; [128562]; [129327]; [128564]; [128524]; [128520]; [128123] ].

Definition PADDING_EMOJI : str := [128998].

(** ["ABCDEFGHIJKLMNOPQRSTUVWXYZabcdefghijklmnopqrstuvwxyz0123456789+/"] *)
Definition B64_STD : str :=
  map N.of_nat (seq 65 26 ++ seq 97 26 ++ seq 48 10) ++ [43; 47].

Definition B64_TO_EMOJI : gmap str str :=
  dict_of (map (λ i, ([nth i B64_STD 0], nth i BASE64_EMOJI_64 [])) (range 64)).

Definition EMOJI_TO_B64 : gmap str str :=
  dict_of (map (λ i, (nth i BASE64_EMOJI_64 [], [nth i B64_STD 0])) (range 64)).


(** ** Result envelope *)

(** The exceptions the codec functions catch. *)
Inductive exn :=
| UnicodeEncodeError
| UnicodeDecodeError
| KeyError
| ValueError
| BinasciiError.

(** The [error] field.  The fixed texts of the source are constructors; the
    offending unit of an "Unknown emoji" message is kept as data ([repr]
    prints it), and [str(e)] of a caught exception is kept as the exception. *)
Inductive message :=
| NoMessage                      (* ""                                              *)
| UnknownHexEmoji (ch : str)     (* f"Unknown emoji in hex stream: {repr(ch)}"      *)
| OddLengthHex                   (* "Odd-length hex after mapping (corrupt input)." *)
| UnknownB64Emoji (ch : str)     (* f"Unknown emoji in base64 stream: {repr(ch)}"   *)
| ExnText (e : exn)              (* str(e)                                          *)
| Base64DecodeError (e : exn).   (* f"Base64 decode error: {e}"                     *)

Record CodecResult := mkCodecResult {
  ok : bool;
  data : str;
  error : message
}.

(** [CodecResult(True, out)] and [CodecResult(False, "", msg)]. *)
Definition Success (out : str) : CodecResult := mkCodecResult true out NoMessage.
Definition Failure (msg : message) : CodecResult := mkCodecResult false [] msg.

(** ** Byte encodings of text *)

(** What [text.encode(encoding)] and [raw.decode(encoding, errors="strict")]
    do for one encoding; [None] is the raised Unicode error. *)
Record Encoding := mkEncoding {
  str_encode : str → option bytes;
  bytes_decode : bytes → option str
}.

(** An encoding produces bytes, and strict decoding undoes encoding. *)
Class Lossless (E : Encoding) : Prop := {
  encode_is_bytes : ∀ t raw, str_encode E t = Some raw → is_bytes raw;
  decode_encode : ∀ t raw, str_encode E t = Some raw → bytes_decode E raw = Some t
}.

Module Utf8.

Definition is_surrogate (c : codepoint) : bool := (0xD800 <=? c) && (c <=? 0xDFFF).

Definition encode_cp (c : codepoint) : option bytes :=
  if c <? 0x80 then Some [c]
  else if c <? 0x800 then Some [0xC0 + c / 64; 0x80 + c mod 64]
  else if c <? 0x10000 then
    if is_surrogate c then None
    else Some [0xE0 + c / 4096; 0x80 + (c / 64) mod 64; 0x80 + c mod 64]
  else if c <=? max_codepoint then
    Some [0xF0 + c / 262144; 0x80 + (c / 4096) mod 64;
          0x80 + (c / 64) mod 64; 0x80 + c mod 64]
  else None.

Fixpoint encode (t : str) : option bytes :=
  match t with
  | [] => Some []
  | c :: t' => b ← encode_cp c; r ← encode t'; Some (b ++ r)
  end.

(** A continuation byte [10xxxxxx]. *)
Definition is_cont (b : N) : bool := (0x80 <=? b) && (b <? 0xC0).

(** Strict decoding: truncated sequences, stray continuation bytes,
    overlong forms, surrogates and values above [0x10FFFF] are errors. *)
Fixpoint decode (bs : bytes) : option str :=
  match bs with
  | [] => Some []
  | b0 :: r0 =>
    if b0 <? 0x80 then cons b0 <$> decode r0
    else if b0 <? 0xC2 then None
    else if b0 <? 0xE0 then
      match r0 with
      | b1 :: r1 =>
        if is_cont b1
        then cons ((b0 - 0xC0) * 64 + (b1 - 0x80)) <$> decode r1
        else None
      | _ => None
      end
    else if b0 <? 0xF0 then
      match r0 with
      | b1 :: b2 :: r2 =>
        let c := (b0 - 0xE0) * 4096 + (b1 - 0x80) * 64 + (b2 - 0x80) in
        if is_cont b1 && is_cont b2 && (0x800 <=? c) && negb (is_surrogate c)
        then cons c <$> decode r2
        else None
      | _ => None
      end
    else if b0 <? 0xF5 then
      match r0 with
      | b1 :: b2 :: b3 :: r3 =>
        let c := (b0 - 0xF0) * 262144 + (b1 - 0x80) * 4096
                 + (b2 - 0x80) * 64 + (b3 - 0x80) in
        if is_cont b1 && is_cont b2 && is_cont b3
           && (0x10000 <=? c) && (c <=? max_codepoint)
        then cons c <$> decode r3
        else None
      | _ => None
      end
    else None
  end.

End Utf8.

Definition utf8 : Encoding := mkEncoding Utf8.encode Utf8.decode.

Module Latin1.

(** ["latin-1"]: code points below 256 are the bytes. *)
Definition encode (t : str) : option bytes :=
  if forallb (λ c, c <? 256) t then Some t else None.

Definition decode (bs : bytes) : option str := Some bs.

End Latin1.

Definition latin1 : Encoding := mkEncoding Latin1.encode Latin1.decode.

(** ** Hex text of bytes *)

(** [raw.hex()]: two lower-case digits per byte, high nibble first. *)
Definition hex_digit (n : N) : codepoint := nth (N.to_nat n) hex_digits 0.

Definition bytes_hex (raw : bytes) : str :=
  flat_map (λ b, [hex_digit (b / 16); hex_digit (b mod 16)]) raw.

Definition hex_val (c : codepoint) : option N :=
  if (48 <=? c) && (c <=? 57) then Some (c - 48)
  else if (97 <=? c) && (c <=? 102) then Some (c - 87)
  else if (65 <=? c) && (c <=? 70) then Some (c - 55)
  else None.

Definition is_ascii_space (c : codepoint) : bool :=
  ((0x09 <=? c) && (c <=? 0x0D)) || (c =? 0x20).

(** [bytes.fromhex(s)]: pairs of hex digits, ASCII whitespace allowed
    between pairs; [None] is the [ValueError]. *)
Fixpoint bytes_fromhex (s : str) : option bytes :=
  match s with
  | [] => Some []
  | h :: r =>
    if is_ascii_space h then bytes_fromhex r
    else match r with
         | l :: r' =>
           hi ← hex_val h; lo ← hex_val l;
           cons (hi * 16 + lo) <$> bytes_fromhex r'
         | [] => None
         end
  end.

(** ** Nibble codec *)

Definition encode_hex_emoji (E : Encoding) (text : str) : CodecResult :=
  match str_encode E text with
  | None => Failure (ExnText UnicodeEncodeError)
  | Some raw =>
    let hexstr := bytes_hex raw in
    match mapM (λ h, HEX_MAP !! [h]) hexstr with
    | Some out => Success (concat out)
    | None => Failure (ExnText KeyError)
    end
  end.

(** The [for ch in emoji_text] loop: [inl] is the early [return], [inr] the
    list [nibbles] when the loop runs to its end. *)
Fixpoint hex_scan (emoji_text : str) (nibbles : list str) : CodecResult + list str :=
  match emoji_text with
  | [] => inr nibbles
  | ch :: rest =>
    match REV_HEX_MAP !! [ch] with
    | Some v => hex_scan rest (nibbles ++ [v])
    | None =>
      if isspace [ch] then hex_scan rest nibbles
      else inl (Failure (UnknownHexEmoji [ch]))
    end
  end.

Definition decode_hex_emoji (E : Encoding) (emoji_text : str) : CodecResult :=
  match hex_scan emoji_text [] with
  | inl res => res
  | inr nibbles =>
    let hexstr := concat nibbles in
    if negb (length hexstr mod 2 =? 0)%nat then Failure OddLengthHex
    else match bytes_fromhex hexstr with
         | None => Failure (ExnText ValueError)
         | Some raw =>
           match bytes_decode E raw with
           | None => Failure (ExnText UnicodeDecodeError)
           | Some text => Success text
           end
         end
  end.

(** ** Standard base-64 *)

Definition b64_char (n : N) : codepoint := nth (N.to_nat n) B64_STD 0.

Definition pad_char : codepoint := 61.   (* "=" *)

(** [base64.b64encode(raw)]: the ASCII codes of the encoded text. *)
Fixpoint b64encode (raw : bytes) : bytes :=
  match raw with
  | [] => []
  | [a] => [b64_char (a / 4); b64_char ((a mod 4) * 16); pad_char; pad_char]
  | [a; b] =>
    [b64_char (a / 4); b64_char ((a mod 4) * 16 + b / 16);
     b64_char ((b mod 16) * 4); pad_char]
  | a :: b :: c :: r =>
    b64_char (a / 4) :: b64_char ((a mod 4) * 16 + b / 16)
    :: b64_char ((b mod 16) * 4 + c / 64) :: b64_char (c mod 64)
    :: b64encode r
  end.

(** [raw.decode("ascii")]. *)
Definition ascii_decode (raw : bytes) : option str :=
  if forallb (λ b, b <? 128) raw then Some raw else None.

(** The value of a base-64 character. *)
Definition b64_val (c : codepoint) : option N :=
  if (65 <=? c) && (c <=? 90) then Some (c - 65)
  else if (97 <=? c) && (c <=? 122) then Some (c - 71)
  else if (48 <=? c) && (c <=? 57) then Some (c + 4)
  else if c =? 43 then Some 62
  else if c =? 47 then Some 63
  else None.

(** [base64.b64decode(s, validate=True)]: groups of four characters of the
    alphabet, padding only to complete the last group; [None] is the
    [binascii.Error].  The bits of the last character that a padded group
    does not use are dropped unchecked, as [binascii] does. *)
Fixpoint b64decode (s : str) : option bytes :=
  match s with
  | [] => Some []
  | c0 :: c1 :: c2 :: c3 :: r =>
    v0 ← b64_val c0; v1 ← b64_val c1;
    if c2 =? pad_char then
      if (c3 =? pad_char) && bool_decide (r = []) then Some [v0 * 4 + v1 / 16] else None
    else
      v2 ← b64_val c2;
      if c3 =? pad_char then
        if bool_decide (r = [])
        then Some [v0 * 4 + v1 / 16; (v1 mod 16) * 16 + v2 / 4]
        else None
      else
        v3 ← b64_val c3; rest ← b64decode r;
        Some (v0 * 4 + v1 / 16 :: (v1 mod 16) * 16 + v2 / 4 :: (v2 mod 4) * 64 + v3 :: rest)
  | _ => None
  end.

(** ** Base-64 codec *)

Definition encode_b64_emoji (E : Encoding) (text : str) : CodecResult :=
  match str_encode E text with
  | None => Failure (ExnText UnicodeEncodeError)
  | Some raw =>
    match ascii_decode (b64encode raw) with
    | None => Failure (ExnText UnicodeDecodeError)
    | Some b64 =>
      match mapM (λ ch, if ch =? pad_char then Some PADDING_EMOJI
                        else B64_TO_EMOJI !! [ch]) b64 with
      | Some out => Success (concat out)
      | None => Failure (ExnText KeyError)
      end
    end
  end.

(** The part of the [while] body after the unit [ch] is chosen; [next] is
    the rest of the loop from the new index [i]. *)
Definition b64_unit (ch : str) (next : list str → CodecResult + list str)
    (chars : list str) : CodecResult + list str :=
  if isspace ch then next chars
  else if bool_decide (ch = PADDING_EMOJI) then next (chars ++ [[pad_char]])
  else match EMOJI_TO_B64 !! ch with
       | Some v => next (chars ++ [v])
       | None => inl (Failure (UnknownB64Emoji ch))
       end.

(** [two in EMOJI_TO_B64 or two == PADDING_EMOJI]. *)
Definition two_matches (two : str) : bool :=
  bool_decide (is_Some (EMOJI_TO_B64 !! two)) || bool_decide (two = PADDING_EMOJI).

(** The [while i < len(emoji_text)] loop on [emoji_text[i:]]: [inl] is the
    early [return], [inr] the list [chars] when the loop runs to its end. *)
Fixpoint b64_scan (rest : str) : list str → CodecResult + list str :=
  match rest with
  | [] => inr
  | c0 :: rest1 =>
    match rest1 with
    | c1 :: rest2 =>
      if two_matches [c0; c1]
      then b64_unit [c0; c1] (b64_scan rest2)
      else b64_unit [c0] (b64_scan rest1)
    | [] => b64_unit [c0] (b64_scan rest1)
    end
  end.

Definition decode_b64_emoji (E : Encoding) (emoji_text : str) : CodecResult :=
  match b64_scan emoji_text [] with
  | inl res => res
  | inr chars =>
    let b64 := concat chars in
    match b64decode b64 with
    | None => Failure (Base64DecodeError BinasciiError)
    | Some raw =>
      match bytes_decode E raw with
      | None => Failure (Base64DecodeError UnicodeDecodeError)
      | Some text => Success text
      end
    end
  end.

(** ** Scheme detectors *)

Definition in_rev_hex_map (ch : codepoint) : bool :=
  bool_decide (is_Some (REV_HEX_MAP !! [ch])).

Definition looks_like_hex_emoji (s : str) : bool :=
  forallb (λ ch, in_rev_hex_map ch || isspace [ch]) s
  && existsb in_rev_hex_map s.

Definition emoji_set : gset str := list_to_set (BASE64_EMOJI_64 ++ [PADDING_EMOJI]).

Definition in_emoji_set (ch : codepoint) : bool := bool_decide ([ch] ∈ emoji_set).

Definition looks_like_b64_emoji (s : str) : bool :=
  forallb (λ ch, in_emoji_set ch || isspace [ch]) s
  && existsb in_emoji_set s.

(** ** Command line *)

Inductive Mode := hex | b64.

(** The parsed arguments [run_cli] dispatches on ([--encode] and [--decode]
    are mutually exclusive; [--mode] defaults to [hex]). *)
Record Args := mkArgs {
  arg_encode : bool;
  arg_decode : bool;
  arg_mode : Mode
}.

(** The [res] of [run_cli] on the input text [data_in] (the source's [data]); [None] when neither
    flag is given and the GUI is launched instead. *)
Definition cli_res (args : Args) (data_in : str) : option CodecResult :=
  if negb (arg_encode args || arg_decode args) then None
  else if arg_encode args then
    Some (match arg_mode args with
          | hex => encode_hex_emoji utf8 data_in
          | b64 => encode_b64_emoji utf8 data_in
          end)
  else
    Some (match arg_mode args with
          | hex =>
            if looks_like_b64_emoji data_in then decode_b64_emoji utf8 data_in
            else decode_hex_emoji utf8 data_in
          | b64 =>
            if looks_like_hex_emoji data_in then decode_hex_emoji utf8 data_in
            else decode_b64_emoji utf8 data_in
          end).

(** Exit status, text written to the output, and text printed to stderr. *)
Definition run_cli (args : Args) (data_in : str) : N * option str * option message :=
  match cli_res args data_in with
  | None => (0, None, None)
  | Some res =>
    if negb (ok res) then (2, None, Some (error res))
    else (0, Some (data res), None)
  end.

(** ** Auto-Detect button *)

Inductive Direction := encode | decode.

Inductive Status :=
| Ready
| InputIsEmpty
| StatusSuccess
| StatusError (msg : message)
| NothingToDetect
| CannotDetect.

(** The state of [EmojiCodecApp] the actions read and write: the two text
    panes, the two radio variables and the status label. *)
Record App := mkApp {
  input : str;
  output : str;
  mode : Mode;
  direction : Direction;
  status : Status
}.

Fixpoint drop_while (p : codepoint → bool) (s : str) : str :=
  match s with
  | [] => []
  | c :: r => if p c then drop_while p r else s
  end.

Definition lstrip (p : codepoint → bool) (s : str) : str := drop_while p s.
Definition rstrip (p : codepoint → bool) (s : str) : str := rev (drop_while p (rev s)).

(** [s.strip()] and [s.rstrip("\n")]. *)
Definition strip (s : str) : str := rstrip cp_isspace (lstrip cp_isspace s).
Definition rstrip_nl (s : str) : str := rstrip (N.eqb 10) s.

(** [self.input.get("1.0", "end")]: the pane's text and Tk's final newline. *)
Definition input_get (app : App) : str := input app ++ [10].

Definition set_status (msg : Status) (app : App) : App :=
  mkApp (input app) (output app) (mode app) (direction app) msg.

Definition output_delete_and_insert (s : str) (app : App) : App :=
  mkApp (input app) s (mode app) (direction app) (status app).

Definition set_mode (m : Mode) (d : Direction) (app : App) : App :=
  mkApp (input app) (output app) m d (status app).

(** The codec call of [run]. *)
Definition run_res (app : App) (text : str) : CodecResult :=
  match direction app, mode app with
  | encode, hex => encode_hex_emoji utf8 text
  | encode, b64 => encode_b64_emoji utf8 text
  | decode, hex => decode_hex_emoji utf8 text
  | decode, b64 => decode_b64_emoji utf8 text
  end.

Definition run (app : App) : App :=
  let text := rstrip_nl (input_get app) in
  match text with
  | [] => output_delete_and_insert [] (set_status InputIsEmpty app)
  | _ =>
    let res := run_res app text in
    if ok res then set_status StatusSuccess (output_delete_and_insert (data res) app)
    else set_status (StatusError (error res)) (output_delete_and_insert [] app)
  end.

Definition auto_detect_decode (app : App) : App :=
  let text := strip (input_get app) in
  match text with
  | [] => set_status NothingToDetect app
  | _ =>
    if looks_like_hex_emoji text then run (set_mode hex decode app)
    else if looks_like_b64_emoji text then run (set_mode b64 decode app)
    else set_status CannotDetect app
  end.

(** ** The other actions of the window *)

(** The texts of the status label: those [run] and [auto_detect_decode]
    set, and those of the pane and clipboard actions. *)
Inductive StatusLine :=
| RunStatus (s : Status)
| SwappedInputOutput             (* "Swapped Input/Output."           *)
| PastedFromClipboard            (* "Pasted from clipboard."          *)
| ClipboardEmptyOrUnavailable    (* "Clipboard empty or unavailable." *)
| NothingToCopy                  (* "Nothing to copy."                *)
| CopiedToClipboard.             (* "Copied to clipboard."            *)

(** The window with its clipboard: [w_status] is what the label shows (the
    status field of [w_app] is the one [run] or [auto_detect_decode] set
    last; no action reads it); [w_clipboard] is [None] when
    [clipboard_get] would raise. *)
Record Window := mkWindow {
  w_app : App;
  w_status : StatusLine;
  w_clipboard : option str
}.

(** [self.output.get("1.0", "end")]. *)
Definition output_get (app : App) : str := output app ++ [10].

(** [self.input.delete("1.0", "end")] followed by [self.input.insert("1.0", s)];
    with [s] empty, the deletion alone. *)
Definition input_replace (s : str) (app : App) : App :=
  mkApp s (output app) (mode app) (direction app) (status app).

(** The Run and Auto-Detect buttons. *)
Definition w_run (w : Window) : Window :=
  let app := run (w_app w) in mkWindow app (RunStatus (status app)) (w_clipboard w).

Definition w_auto_detect_decode (w : Window) : Window :=
  let app := auto_detect_decode (w_app w) in
  mkWindow app (RunStatus (status app)) (w_clipboard w).

(** The radio buttons. *)
Definition select_mode (m : Mode) (w : Window) : Window :=
  mkWindow (set_mode m (direction (w_app w)) (w_app w)) (w_status w) (w_clipboard w).

Definition select_direction (d : Direction) (w : Window) : Window :=
  mkWindow (set_mode (mode (w_app w)) d (w_app w)) (w_status w) (w_clipboard w).

Definition swap (w : Window) : Window :=
  let in_text := input_get (w_app w) in
  let out_text := output_get (w_app w) in
  let app1 := input_replace [] (w_app w) in
  let app2 := output_delete_and_insert [] app1 in
  let app3 := input_replace out_text app2 in
  let app4 := output_delete_and_insert in_text app3 in
  mkWindow app4 SwappedInputOutput (w_clipboard w).

Definition paste_input (w : Window) : Window :=
  let app1 := input_replace [] (w_app w) in
  match w_clipboard w with
  | Some text => mkWindow (input_replace text app1) PastedFromClipboard (w_clipboard w)
  | None => mkWindow app1 ClipboardEmptyOrUnavailable (w_clipboard w)
  end.

Definition copy_output (w : Window) : Window :=
  let out := rstrip_nl (output_get (w_app w)) in
  match out with
  | [] => mkWindow (w_app w) NothingToCopy (w_clipboard w)
  | _ => mkWindow (w_app w) CopiedToClipboard (Some out)
  end.

(** * Notions used to state the properties *)

(** The symbol of a nibble value. *)
Definition hex_sym (n : N) : codepoint :=
  nth 0 (nth (N.to_nat n) HEX_EMOJI_16 []) 0.

(** The nibble tokens of a stream, and the digit each stands for. *)
Definition hex_tokens (s : str) : str := List.filter in_rev_hex_map s.

Definition hex_token_digit (ch : codepoint) : str :=
  match REV_HEX_MAP !! [ch] with Some v => v | None => [] end.

(** A stream of symbols and whitespace only. *)
Definition hex_clean (s : str) : Prop :=
  Forall (λ ch, in_rev_hex_map ch = true ∨ cp_isspace ch = true) s.

(** The specification's encoder: for each byte, the symbol of the high
    nibble, then the symbol of the low nibble. *)
Definition spec_nibble_symbols (raw : bytes) : list str :=
  flat_map (λ b, [nth (N.to_nat (b / 16)) HEX_EMOJI_16 [];
                  nth (N.to_nat (b mod 16)) HEX_EMOJI_16 []]) raw.

(** The one symbol of two code points, U+2639 U+FE0F. *)
Definition frown : str := [9785; 65039].

(** The symbols a base-64 stream is made of. *)
Definition b64_symbols : list str := BASE64_EMOJI_64 ++ [PADDING_EMOJI].

(** The base-64 character a symbol is decoded to. *)
Definition b64_token_char (sym : str) : str :=
  if bool_decide (sym = PADDING_EMOJI) then [pad_char]
  else match EMOJI_TO_B64 !! sym with Some v => v | None => [] end.

(** A stream written symbol by symbol with a run of code points before the
    first symbol and after each symbol: [gap0 s1 g1 s2 g2 ...]. *)
Definition weave (gap0 : str) (l : list (str * str)) : str :=
  gap0 ++ flat_map (λ sg, sg.1 ++ sg.2) l.

(** The stream of the symbols alone. *)
Definition no_gaps (syms : list str) : list (str * str) := map (λ sym, (sym, [])) syms.

Definition all_space (g : str) : Prop := Forall (λ c, cp_isspace c = true) g.

(** Symbols of the base-64 alphabet (or padding), each followed by whitespace. *)
Definition b64_woven (l : list (str * str)) : Prop :=
  Forall (λ sg, sg.1 ∈ b64_symbols ∧ all_space sg.2) l.

Definition not_space (c : codepoint) : bool := negb (cp_isspace c).

(** What [run] leaves in the output pane and the status label for a result. *)
Definition shown (res : CodecResult) : str * Status :=
  if ok res then (data res, StatusSuccess) else ([], StatusError (error res)).

(** The base-64 characters "U", "j" and "k", whose glyphs stand twice in
    [BASE64_EMOJI_64]. *)
Definition repeated_b64_chars : str := [85; 106; 107].

(** Consecutive nibble values paired into bytes, the first of each pair the
    high nibble; a last value without a partner is left out. *)
Fixpoint pair_up (nibs : list N) : bytes :=
  match nibs with
  | hi :: lo :: rest => hi * 16 + lo :: pair_up rest
  | _ => []
  end.

(** The code points UTF-8 can encode: up to U+10FFFF, surrogates apart. *)
Definition utf8_scalar (c : codepoint) : bool :=
  (c <=? max_codepoint) && negb (Utf8.is_surrogate c).

(** Every byte string has at most one text: encoding undoes strict decoding. *)
Class Canonical (E : Encoding) : Prop :=
  encode_decode : ∀ raw t, is_bytes raw → bytes_decode E raw = Some t → str_encode E t = Some raw.

(** The nibble values of bytes, high nibble first. *)
Definition nibbles_of_bytes (raw : bytes) : list N :=
  flat_map (λ b, [b / 16; b mod 16]) raw.

(** The number of padding characters base-64 adds to [n] bytes. *)
Definition b64_padding (n : nat) : nat := ((3 - n mod 3) mod 3)%nat.

(** * Properties *)

(** ** Finite checks *)

(** A decidable property of every number below [k], checked by running it. *)
Lemma N_below_decide (k : nat) (P : N → Prop) `{∀ n, Decision (P n)} :
  forallb (λ n, bool_decide (P n)) (map N.of_nat (seq 0 k)) = true →
  ∀ n, n < N.of_nat k → P n.
Proof.
  intros Hall n Hn. rewrite forallb_forall in Hall.
  eapply bool_decide_eq_true_1, (Hall n).
  apply in_map_iff. exists (N.to_nat n). split; [lia|].
  apply in_seq. lia.
Qed.

Lemma N_below_exists (k : nat) (P : N → Prop) `{∀ n, Decision (P n)} :
  existsb (λ n, bool_decide (P n)) (map N.of_nat (seq 0 k)) = true →
  ∃ n, n < N.of_nat k ∧ P n.
Proof.
  intros Hex. apply existsb_exists in Hex as (n & Hin & Hn).
  apply bool_decide_eq_true_1 in Hn. exists n. split; [|done].
  apply in_map_iff in Hin as (i & <- & Hi). apply in_seq in Hi. lia.
Qed.

Ltac by_running k :=
  match goal with
  | |- ∀ n, n < _ → @?P n => apply (N_below_decide k P); vm_compute; reflexivity
  end.

Ltac run_decide := refine (bool_decide_eq_true_1 _ _); vm_compute; reflexivity.

(** ** The tables *)

(** The length check at import time passes. *)
Lemma BASE64_EMOJI_64_length : length BASE64_EMOJI_64 = 64%nat.
Proof. reflexivity. Qed.

(** [HEX_MAP_items] lists the items of [HEX_MAP]. *)
Lemma HEX_MAP_items_spec : list_to_map HEX_MAP_items = HEX_MAP ∧ NoDup HEX_MAP_items.*1.
Proof. split; [vm_compute; reflexivity|run_decide]. Qed.

Lemma HEX_MAP_digit n :
  n < 16 → HEX_MAP !! [hex_digit n] = Some [hex_sym n].
Proof. revert n. by_running 16%nat. Qed.

Lemma REV_HEX_MAP_sym n :
  n < 16 → REV_HEX_MAP !! [hex_sym n] = Some [hex_digit n].
Proof. revert n. by_running 16%nat. Qed.

Lemma HEX_EMOJI_16_nth n :
  n < 16 → nth (N.to_nat n) HEX_EMOJI_16 [] = [hex_sym n].
Proof. revert n. by_running 16%nat. Qed.

Lemma hex_val_digit n : n < 16 → hex_val (hex_digit n) = Some n.
Proof. revert n. by_running 16%nat. Qed.

Lemma hex_digit_not_space n : n < 16 → is_ascii_space (hex_digit n) = false.
Proof. revert n. by_running 16%nat. Qed.

(** Every item of [REV_HEX_MAP] sends the symbol of a nibble to its digit. *)
Lemma REV_HEX_MAP_entries :
  map_Forall (λ k v, ∃ n, n < 16 ∧ k = [hex_sym n] ∧ v = [hex_digit n]) REV_HEX_MAP.
Proof.
  assert (H : map_Forall (λ k v : str,
              existsb (λ n, bool_decide (k = [hex_sym n] ∧ v = [hex_digit n]))
                      (map N.of_nat (seq 0 16)) = true) REV_HEX_MAP).
  { refine (bool_decide_eq_true_1 _ _). vm_compute. reflexivity. }
  intros k v Hkv. specialize (H k v Hkv).
  by apply (N_below_exists 16) in H.
Qed.

Lemma hex_sym_not_space n : n < 16 → cp_isspace (hex_sym n) = false.
Proof. revert n. by_running 16%nat. Qed.

Lemma isspace_single c : isspace [c] = cp_isspace c.
Proof. simpl. apply andb_true_r. Qed.

Lemma in_rev_hex_map_true ch :
  in_rev_hex_map ch = true → ∃ n, n < 16 ∧ ch = hex_sym n.
Proof.
  intros H. apply bool_decide_eq_true_1 in H as [v Hv].
  apply REV_HEX_MAP_entries in Hv as (n & Hn & Hk & _).
  exists n. split; [done|]. by injection Hk.
Qed.

Lemma in_rev_hex_map_sym n : n < 16 → in_rev_hex_map (hex_sym n) = true.
Proof.
  intros Hn. apply bool_decide_eq_true_2. rewrite REV_HEX_MAP_sym by done. eauto.
Qed.

Lemma in_rev_hex_map_false ch :
  in_rev_hex_map ch = false → REV_HEX_MAP !! [ch] = None.
Proof.
  intros H. apply bool_decide_eq_false_1 in H.
  destruct (REV_HEX_MAP !! [ch]) eqn:E; [|done]. destruct H. eauto.
Qed.

Lemma space_not_in_rev_hex_map ch : cp_isspace ch = true → in_rev_hex_map ch = false.
Proof.
  intros Hs. destruct (in_rev_hex_map ch) eqn:E; [|done].
  apply in_rev_hex_map_true in E as (n & Hn & ->).
  rewrite hex_sym_not_space in Hs; done.
Qed.

(** ** The scan of the nibble decoder *)

Lemma hex_scan_sym n rest nibbles :
  n < 16 → hex_scan (hex_sym n :: rest) nibbles = hex_scan rest (nibbles ++ [[hex_digit n]]).
Proof. intros Hn. simpl. by rewrite REV_HEX_MAP_sym. Qed.

Lemma hex_scan_space ch rest nibbles :
  cp_isspace ch = true → hex_scan (ch :: rest) nibbles = hex_scan rest nibbles.
Proof.
  intros Hs. cbn [hex_scan].
  rewrite (in_rev_hex_map_false ch) by by apply space_not_in_rev_hex_map.
  by rewrite isspace_single, Hs.
Qed.

Lemma hex_scan_unknown ch rest nibbles :
  in_rev_hex_map ch = false → cp_isspace ch = false →
  hex_scan (ch :: rest) nibbles = inl (Failure (UnknownHexEmoji [ch])).
Proof.
  intros Hm Hs. cbn [hex_scan].
  by rewrite (in_rev_hex_map_false ch), isspace_single, Hs.
Qed.

Lemma hex_scan_app s1 s2 nibbles :
  hex_scan (s1 ++ s2) nibbles =
  match hex_scan s1 nibbles with
  | inl res => inl res
  | inr nibbles' => hex_scan s2 nibbles'
  end.
Proof.
  revert nibbles. induction s1 as [|ch s1 IH]; intros nibbles; [done|].
  cbn [app hex_scan]. destruct (REV_HEX_MAP !! [ch]); [apply IH|].
  destruct (isspace [ch]); [apply IH|done].
Qed.

Lemma hex_scan_clean s nibbles :
  hex_clean s → hex_scan s nibbles = inr (nibbles ++ map hex_token_digit (hex_tokens s)).
Proof.
  intros Hc. revert nibbles. induction Hc as [|ch s [Hm|Hs] _ IH]; intros nibbles.
  - simpl. by rewrite app_nil_r.
  - destruct (in_rev_hex_map_true _ Hm) as (n & Hn & ->).
    rewrite hex_scan_sym, IH by done. unfold hex_tokens. cbn [List.filter].
    rewrite in_rev_hex_map_sym by done. cbn [map]. unfold hex_token_digit at 2.
    rewrite REV_HEX_MAP_sym by done. simpl. by rewrite <- app_assoc.
  - rewrite hex_scan_space, IH by done. unfold hex_tokens. cbn [List.filter].
    by rewrite space_not_in_rev_hex_map.
Qed.

Lemma hex_token_digits_length s :
  length (concat (map hex_token_digit (hex_tokens s))) = length (hex_tokens s).
Proof.
  unfold hex_tokens. induction s as [|ch s IH]; [done|]. cbn [List.filter].
  destruct (in_rev_hex_map ch) eqn:E; [|done].
  destruct (in_rev_hex_map_true _ E) as (n & Hn & ->).
  cbn [map concat]. unfold hex_token_digit at 1. rewrite REV_HEX_MAP_sym by done.
  simpl. by rewrite IH.
Qed.

(** Whitespace is transparent to the scan, wherever it stands. *)
Lemma hex_scan_drops_space s nibbles :
  hex_scan (List.filter (λ ch, negb (cp_isspace ch)) s) nibbles = hex_scan s nibbles.
Proof.
  revert nibbles. induction s as [|ch s IH]; intros nibbles; [done|].
  cbn [List.filter]. destruct (cp_isspace ch) eqn:Hs; simpl negb; cbv iota.
  - by rewrite hex_scan_space.
  - cbn [hex_scan]. destruct (REV_HEX_MAP !! [ch]); [apply IH|].
    rewrite isspace_single, Hs. done.
Qed.

(** ** UTF-8 and Latin-1 are lossless *)

Ltac Zify.zify_post_hook ::= Z.to_euclidean_division_equations.

Ltac decide_cmp :=
  repeat match goal with
         | |- context [?a <? ?b] => destruct (N.ltb_spec a b); try (exfalso; lia)
         | |- context [?a <=? ?b] => destruct (N.leb_spec a b); try (exfalso; lia)
         end;
  cbn [andb orb negb].

Lemma utf8_encode_cp_bytes c b : Utf8.encode_cp c = Some b → is_bytes b.
Proof.
  unfold Utf8.encode_cp, Utf8.is_surrogate, max_codepoint, is_bytes.
  decide_cmp; intros [= <-]; repeat constructor; lia.
Qed.

Lemma utf8_decode_encode_cp c b r :
  Utf8.encode_cp c = Some b → Utf8.decode (b ++ r) = cons c <$> Utf8.decode r.
Proof.
  unfold Utf8.encode_cp, Utf8.is_surrogate, max_codepoint.
  decide_cmp; intros [= <-]; cbn [app Utf8.decode];
    unfold Utf8.is_cont, Utf8.is_surrogate, max_codepoint;
    decide_cmp; try done; do 2 f_equal; lia.
Qed.

#[global] Instance utf8_lossless : Lossless utf8.
Proof.
  split; simpl.
  - intros t. induction t as [|c t IH]; intros raw; simpl.
    + intros [= <-]. constructor.
    + destruct (Utf8.encode_cp c) as [b|] eqn:Hc; [|done]. simpl.
      destruct (Utf8.encode t) as [r|]; [|done]. simpl. intros [= <-].
      apply Forall_app. split; [by eapply utf8_encode_cp_bytes | by apply IH].
  - intros t. induction t as [|c t IH]; intros raw; simpl.
    + by intros [= <-].
    + destruct (Utf8.encode_cp c) as [b|] eqn:Hc; [|done]. simpl.
      destruct (Utf8.encode t) as [r|]; [|done]. simpl. intros [= <-].
      rewrite (utf8_decode_encode_cp c) by done. by rewrite (IH r).
Qed.

#[global] Instance latin1_lossless : Lossless latin1.
Proof.
  split; simpl; unfold Latin1.encode, Latin1.decode; intros t raw;
    destruct (forallb (λ c, c <? 256) t) eqn:Hall; intros [= <-]; [|done].
  rewrite forallb_forall in Hall. apply Forall_forall. intros c Hc.
  apply list_elem_of_In, Hall in Hc. by apply N.ltb_lt in Hc.
Qed.

(** ** Hex text *)

Lemma bytes_fromhex_hex raw : is_bytes raw → bytes_fromhex (bytes_hex raw) = Some raw.
Proof.
  induction 1 as [|b raw Hb _ IH]; [done|].
  cbn [bytes_hex flat_map app bytes_fromhex].
  fold (bytes_hex raw).
  rewrite hex_digit_not_space, !hex_val_digit by lia. cbn [mbind option_bind].
  rewrite IH. cbn [fmap option_fmap option_map]. f_equal. f_equal. lia.
Qed.

Lemma bytes_hex_length raw : length (bytes_hex raw) = (2 * length raw)%nat.
Proof. induction raw as [|b raw IH]; simpl in *; lia. Qed.

(** ** Shape of the nibble encoding *)

Lemma mapM_HEX_MAP raw :
  is_bytes raw →
  mapM (λ h, HEX_MAP !! [h]) (bytes_hex raw) = Some (spec_nibble_symbols raw).
Proof.
  induction 1 as [|b raw Hb _ IH]; [done|].
  cbn [bytes_hex spec_nibble_symbols flat_map app mapM].
  fold (bytes_hex raw). fold (spec_nibble_symbols raw).
  rewrite !HEX_MAP_digit, !HEX_EMOJI_16_nth by lia. cbn [mbind option_bind].
  rewrite IH. done.
Qed.

Lemma encode_hex_emoji_shape E text raw :
  str_encode E text = Some raw → is_bytes raw →
  encode_hex_emoji E text = Success (concat (spec_nibble_symbols raw)).
Proof.
  intros Henc Hraw. unfold encode_hex_emoji. by rewrite Henc, mapM_HEX_MAP.
Qed.

Lemma spec_nibble_symbols_length raw :
  length (spec_nibble_symbols raw) = (2 * length raw)%nat.
Proof. induction raw as [|b raw IH]; simpl in *; lia. Qed.

Lemma spec_nibble_symbols_concat_length raw :
  is_bytes raw → length (concat (spec_nibble_symbols raw)) = (2 * length raw)%nat.
Proof.
  induction 1 as [|b raw Hb _ IH]; [done|].
  cbn [spec_nibble_symbols flat_map app concat length].
  fold (spec_nibble_symbols raw).
  rewrite !HEX_EMOJI_16_nth by lia. cbn [app length]. lia.
Qed.

Lemma hex_scan_encoded raw nibbles :
  is_bytes raw →
  hex_scan (concat (spec_nibble_symbols raw)) nibbles
  = inr (nibbles ++ map (λ d, [d]) (bytes_hex raw)).
Proof.
  intros Hraw. revert nibbles. induction Hraw as [|b raw Hb _ IH]; intros nibbles.
  - simpl. by rewrite app_nil_r.
  - cbn [spec_nibble_symbols bytes_hex flat_map app concat map].
    fold (spec_nibble_symbols raw). fold (bytes_hex raw).
    rewrite !HEX_EMOJI_16_nth by lia. cbn [app].
    rewrite !hex_scan_sym by lia. rewrite IH, <- !app_assoc. done.
Qed.

Lemma concat_singletons (s : str) : concat (map (λ d, [d]) s) = s.
Proof. induction s as [|c s IH]; simpl; by rewrite ?IH. Qed.

Lemma decode_encode_hex_emoji E `{!Lossless E} text raw :
  str_encode E text = Some raw →
  decode_hex_emoji E (concat (spec_nibble_symbols raw)) = Success text.
Proof.
  intros Henc. pose proof (encode_is_bytes _ _ Henc) as Hraw.
  unfold decode_hex_emoji. rewrite hex_scan_encoded by done. cbn [app].
  rewrite concat_singletons, bytes_hex_length.
  rewrite (Nat.mul_comm 2), Nat.Div0.mod_mul. cbn [Nat.eqb negb]. rewrite bytes_fromhex_hex by done.
  by rewrite (decode_encode _ _ Henc).
Qed.

(** ** The nibble codec *)

(** The scan either stops at the first unit that is neither a symbol nor
    whitespace, or collects the digit of every token. *)
Lemma hex_scan_cases s nibbles :
  (∃ pre ch post, s = pre ++ ch :: post ∧ hex_clean pre
     ∧ in_rev_hex_map ch = false ∧ cp_isspace ch = false
     ∧ hex_scan s nibbles = inl (Failure (UnknownHexEmoji [ch])))
  ∨ (hex_clean s
     ∧ hex_scan s nibbles = inr (nibbles ++ map hex_token_digit (hex_tokens s))).
Proof.
  revert nibbles. induction s as [|ch s IH]; intros nibbles.
  - right. split; [constructor|]. simpl. by rewrite app_nil_r.
  - destruct (in_rev_hex_map ch) eqn:Hm; [|destruct (cp_isspace ch) eqn:Hs].
    + destruct (in_rev_hex_map_true _ Hm) as (n & Hn & ->).
      rewrite hex_scan_sym by done.
      destruct (IH (nibbles ++ [[hex_digit n]]))
        as [(pre & c & post & -> & Hpre & Hc1 & Hc2 & ->)|[Hcl Hscan]].
      * left. exists (hex_sym n :: pre), c, post. repeat split; try done.
        constructor; [by left|done].
      * right. split; [constructor; [by left|done]|].
        rewrite Hscan. unfold hex_tokens. cbn [List.filter]. rewrite Hm. cbn [map].
        unfold hex_token_digit at 2. rewrite REV_HEX_MAP_sym by done.
        simpl. by rewrite <- app_assoc.
    + rewrite hex_scan_space by done.
      destruct (IH nibbles)
        as [(pre & c & post & -> & Hpre & Hc1 & Hc2 & ->)|[Hcl Hscan]].
      * left. exists (ch :: pre), c, post. repeat split; try done.
        constructor; [by right|done].
      * right. split; [constructor; [by right|done]|].
        rewrite Hscan. unfold hex_tokens. cbn [List.filter]. by rewrite Hm.
    + left. exists [], ch, s. repeat split; try done; [constructor|].
      by apply hex_scan_unknown.
Qed.

Lemma odd_mod2 n : negb (n mod 2 =? 0)%nat = Nat.odd n.
Proof.
  destruct (Nat.odd n) eqn:E.
  - apply Nat.odd_spec in E as [k ->].
    by rewrite Nat.add_comm, Nat.mul_comm, Nat.Div0.mod_add.
  - rewrite <- Nat.negb_even in E. apply negb_false_iff, Nat.even_spec in E as [k ->].
    by rewrite Nat.mul_comm, Nat.Div0.mod_mul.
Qed.

(** Decoding a stream of symbols and whitespace. *)
Lemma decode_hex_emoji_clean E s :
  hex_clean s →
  decode_hex_emoji E s =
  if Nat.odd (length (hex_tokens s)) then Failure OddLengthHex
  else match bytes_fromhex (concat (map hex_token_digit (hex_tokens s))) with
       | None => Failure (ExnText ValueError)
       | Some raw =>
         match bytes_decode E raw with
         | None => Failure (ExnText UnicodeDecodeError)
         | Some text => Success text
         end
       end.
Proof.
  intros Hc. unfold decode_hex_emoji. rewrite hex_scan_clean by done. cbn [app].
  by rewrite odd_mod2, hex_token_digits_length.
Qed.

Lemma hex_tokens_app s1 s2 : hex_tokens (s1 ++ s2) = hex_tokens s1 ++ hex_tokens s2.
Proof. apply List.filter_app. Qed.

Lemma decode_hex_emoji_odd E s :
  Nat.odd (length (hex_tokens s)) = true →
  ok (decode_hex_emoji E s) = false
  ∧ (hex_clean s → decode_hex_emoji E s = Failure OddLengthHex).
Proof.
  intros Hodd. split.
  - destruct (hex_scan_cases s []) as [(pre & c & post & _ & _ & _ & _ & Hs)|[Hcl _]].
    + unfold decode_hex_emoji. by rewrite Hs.
    + by rewrite decode_hex_emoji_clean, Hodd.
  - intros Hcl. by rewrite decode_hex_emoji_clean, Hodd.
Qed.

Lemma decode_hex_emoji_removed E pre x post :
  hex_clean (pre ++ x :: post) → in_rev_hex_map x = true →
  Nat.even (length (hex_tokens (pre ++ x :: post))) = true →
  decode_hex_emoji E (pre ++ post) = Failure OddLengthHex.
Proof.
  intros Hcl Hx Hev. apply decode_hex_emoji_odd.
  - rewrite hex_tokens_app in *. unfold hex_tokens in Hev at 2.
    cbn [List.filter] in Hev. rewrite Hx in Hev. fold (hex_tokens post) in Hev.
    rewrite length_app in *. cbn [length] in Hev.
    rewrite Nat.add_succ_r, Nat.even_succ in Hev. done.
  - unfold hex_clean in *. rewrite Forall_app in *.
    destruct Hcl as [? Hcl]. by inversion Hcl.
Qed.

(** ** The base-64 tables *)

Lemma EMOJI_TO_B64_keys :
  map_Forall (λ k _ : str, k ∈ BASE64_EMOJI_64) EMOJI_TO_B64.
Proof. run_decide. Qed.

Lemma b64_symbols_facts :
  Forall (λ sym : str,
            (sym = frown ∨ (length sym = 1%nat ∧ sym ≠ [9785]))
            ∧ isspace sym = false
            ∧ (sym = PADDING_EMOJI ∨ is_Some (EMOJI_TO_B64 !! sym)))
         b64_symbols.
Proof. run_decide. Qed.

Lemma b64_symbol_inv sym :
  sym ∈ b64_symbols →
  (sym = frown ∨ ∃ c, sym = [c] ∧ c ≠ 9785)
  ∧ isspace sym = false
  ∧ (sym = PADDING_EMOJI ∨ is_Some (EMOJI_TO_B64 !! sym)).
Proof.
  intros Hin. pose proof b64_symbols_facts as H. rewrite Forall_forall in H.
  destruct (H _ Hin) as ([->|[Hlen Hne]] & Hs & Hv); (split; [|done]).
  - by left.
  - right. destruct sym as [|c [|]]; try done. exists c. split; [done|by intros ->].
Qed.

Lemma EMOJI_TO_B64_None u : u ∉ BASE64_EMOJI_64 → EMOJI_TO_B64 !! u = None.
Proof.
  intros Hu. destruct (EMOJI_TO_B64 !! u) eqn:E; [|done].
  by apply EMOJI_TO_B64_keys in E.
Qed.

Lemma two_matches_frown c0 c1 :
  two_matches [c0; c1] = bool_decide (c0 = 9785 ∧ c1 = 65039).
Proof.
  case_bool_decide as H.
  - destruct H as [-> ->]. vm_compute. reflexivity.
  - unfold two_matches. apply orb_false_intro; apply bool_decide_eq_false_2.
    + intros [v Hv]. apply EMOJI_TO_B64_keys in Hv.
      assert (Hin : [c0; c1] ∈ b64_symbols) by (apply elem_of_app; by left).
      apply b64_symbol_inv in Hin as ([Hf|(c & Hc & _)] & _); [|done].
      injection Hf as -> ->. by destruct H.
    + done.
Qed.

(** ** The scan of the base-64 decoder *)

Lemma b64_scan_frown rest :
  b64_scan (9785 :: 65039 :: rest) = b64_unit frown (b64_scan rest).
Proof. cbn [b64_scan]. rewrite two_matches_frown. by rewrite bool_decide_eq_true_2. Qed.

Lemma b64_scan_single c rest :
  ¬ (c = 9785 ∧ head rest = Some 65039) →
  b64_scan (c :: rest) = b64_unit [c] (b64_scan rest).
Proof.
  intros Hne. cbn [b64_scan]. destruct rest as [|c1 rest]; [done|].
  rewrite two_matches_frown, bool_decide_eq_false_2; [done|].
  intros [-> ->]. by destruct Hne.
Qed.

Lemma b64_unit_space c next chars :
  cp_isspace c = true → b64_unit [c] next chars = next chars.
Proof. intros Hs. unfold b64_unit. by rewrite isspace_single, Hs. Qed.

Lemma b64_unit_symbol sym next chars :
  sym ∈ b64_symbols → b64_unit sym next chars = next (chars ++ [b64_token_char sym]).
Proof.
  intros Hin. apply b64_symbol_inv in Hin as (_ & Hs & Hv).
  unfold b64_unit, b64_token_char. rewrite Hs.
  case_bool_decide as Hp; [done|].
  destruct Hv as [?|[v Hv]]; [by destruct Hp|]. by rewrite Hv.
Qed.

Lemma b64_unit_unknown c next chars :
  cp_isspace c = false → [c] ∉ b64_symbols →
  b64_unit [c] next chars = inl (Failure (UnknownB64Emoji [c])).
Proof.
  intros Hs Hnin. unfold b64_unit. rewrite isspace_single, Hs.
  unfold b64_symbols in Hnin. rewrite elem_of_app, list_elem_of_singleton in Hnin.
  rewrite bool_decide_eq_false_2 by tauto.
  rewrite EMOJI_TO_B64_None by tauto. done.
Qed.

Lemma b64_scan_symbol sym rest chars :
  sym ∈ b64_symbols →
  b64_scan (sym ++ rest) chars = b64_scan rest (chars ++ [b64_token_char sym]).
Proof.
  intros Hin. destruct (b64_symbol_inv _ Hin) as ([->|(c & -> & Hc)] & _).
  - cbn [frown app]. rewrite b64_scan_frown. by apply b64_unit_symbol.
  - cbn [app]. rewrite b64_scan_single by tauto. by apply b64_unit_symbol.
Qed.

Lemma space_not_frown c : cp_isspace c = true → c ≠ 9785.
Proof. by intros Hs ->. Qed.

Lemma b64_scan_gap g rest chars :
  all_space g → b64_scan (g ++ rest) chars = b64_scan rest chars.
Proof.
  induction 1 as [|c g Hc _ IH]; [done|]. cbn [app].
  rewrite b64_scan_single by (intros [? _]; by apply (space_not_frown c)).
  by rewrite b64_unit_space.
Qed.

Lemma b64_scan_weave gap0 l rest chars :
  all_space gap0 →
  b64_woven l →
  b64_scan (weave gap0 l ++ rest) chars
  = b64_scan rest (chars ++ map b64_token_char l.*1).
Proof.
  intros H0 Hl. unfold weave. rewrite <- app_assoc, b64_scan_gap by done.
  clear H0. revert chars. induction Hl as [|[sym g] l [Hs Hg] _ IH]; intros chars.
  - simpl. by rewrite app_nil_r.
  - cbn [flat_map fst snd fmap list_fmap map] in *.
    rewrite <- !app_assoc, b64_scan_symbol, b64_scan_gap by done.
    rewrite IH, <- app_assoc. done.
Qed.

Lemma weave_plain (syms : list str) : weave [] (no_gaps syms) = concat syms.
Proof.
  unfold weave. cbn [app]. induction syms as [|sym syms IH]; [done|].
  simpl. rewrite app_nil_r. f_equal. exact IH.
Qed.

Lemma no_gaps_symbols (syms : list str) : (no_gaps syms).*1 = syms.
Proof. induction syms as [|sym syms IH]; [done|]. simpl. f_equal. exact IH. Qed.

(** ** Whitespace and the decoders *)

Lemma filter_all_space g : all_space g → List.filter not_space g = [].
Proof.
  induction 1 as [|c g Hc _ IH]; [done|]. cbn [List.filter]. unfold not_space at 1.
  by rewrite Hc.
Qed.

Lemma filter_weave gap0 (l : list (str * str)) :
  all_space gap0 → Forall (λ sg, all_space sg.2) l →
  List.filter not_space (weave gap0 l) = List.filter not_space (concat l.*1).
Proof.
  intros H0 Hl. unfold weave. rewrite List.filter_app, filter_all_space by done.
  cbn [app]. induction Hl as [|[sym g] l Hg _ IH]; [done|].
  cbn [flat_map fmap list_fmap concat fst snd] in *.
  rewrite !List.filter_app, (filter_all_space g) by done.
  rewrite app_nil_r. f_equal. exact IH.
Qed.

Lemma decode_hex_emoji_drops_space E s :
  decode_hex_emoji E (List.filter not_space s) = decode_hex_emoji E s.
Proof. unfold decode_hex_emoji, not_space. by rewrite hex_scan_drops_space. Qed.

Lemma decode_hex_emoji_weave E gap0 (l : list (str * str)) :
  all_space gap0 → Forall (λ sg, all_space sg.2) l →
  decode_hex_emoji E (weave gap0 l) = decode_hex_emoji E (concat l.*1).
Proof.
  intros H0 Hl.
  rewrite <- (decode_hex_emoji_drops_space E (weave _ _)), filter_weave by done.
  apply decode_hex_emoji_drops_space.
Qed.

Lemma b64_scan_weave_nil gap0 l :
  all_space gap0 →
  b64_woven l →
  b64_scan (weave gap0 l) [] = inr (map b64_token_char l.*1).
Proof.
  intros H0 Hl. rewrite <- (app_nil_r (weave gap0 l)).
  by rewrite b64_scan_weave.
Qed.

Lemma decode_b64_emoji_weave E gap0 (l : list (str * str)) :
  all_space gap0 →
  b64_woven l →
  decode_b64_emoji E (weave gap0 l) = decode_b64_emoji E (concat l.*1).
Proof.
  intros H0 Hl. unfold decode_b64_emoji.
  rewrite <- (weave_plain l.*1), !b64_scan_weave_nil, ?no_gaps_symbols; try done.
  - constructor.
  - clear H0. induction Hl as [|[sym g] l [Hs _] _ IH]; constructor; [|done].
    split; [done|constructor].
Qed.

(** ** Unrecognized units *)

Lemma in_rev_hex_map_iff ch : in_rev_hex_map ch = true ↔ ([ch] ∈ HEX_EMOJI_16).
Proof.
  split.
  - intros Hm. apply in_rev_hex_map_true in Hm as (n & Hn & ->).
    revert n Hn. by_running 16%nat.
  - intros Hin. apply bool_decide_eq_true_2.
    assert (H : Forall (λ sym : str, is_Some (REV_HEX_MAP !! sym)) HEX_EMOJI_16)
      by run_decide.
    rewrite Forall_forall in H. by apply H.
Qed.

Lemma not_in_rev_hex_map ch : [ch] ∉ HEX_EMOJI_16 → in_rev_hex_map ch = false.
Proof.
  intros Hnin. destruct (in_rev_hex_map ch) eqn:E; [|done].
  by apply in_rev_hex_map_iff in E.
Qed.

Lemma decode_hex_emoji_unknown E pre c post :
  hex_clean pre → [c] ∉ HEX_EMOJI_16 → cp_isspace c = false →
  decode_hex_emoji E (pre ++ c :: post) = Failure (UnknownHexEmoji [c]).
Proof.
  intros Hpre Hc Hs. unfold decode_hex_emoji.
  rewrite hex_scan_app, hex_scan_clean by done.
  by rewrite hex_scan_unknown by (by try apply not_in_rev_hex_map).
Qed.

Lemma decode_hex_emoji_some_unknown E s c :
  c ∈ s → [c] ∉ HEX_EMOJI_16 → cp_isspace c = false →
  ∃ c', c' ∈ s ∧ ([c'] ∉ HEX_EMOJI_16) ∧ cp_isspace c' = false
        ∧ decode_hex_emoji E s = Failure (UnknownHexEmoji [c']).
Proof.
  intros Hin Hc Hs.
  destruct (hex_scan_cases s []) as [(pre & c' & post & -> & _ & Hm & Hs' & Hscan)|[Hcl _]].
  - exists c'. split; [apply elem_of_app; right; left|].
    split; [by rewrite <- in_rev_hex_map_iff, Hm|]. split; [done|].
    unfold decode_hex_emoji. by rewrite Hscan.
  - unfold hex_clean in Hcl. rewrite Forall_forall in Hcl.
    destruct (Hcl c Hin) as [Hm|Hw]; [|congruence].
    by apply in_rev_hex_map_iff in Hm.
Qed.

Lemma weave_cons_symbol sym gap l : sym ++ weave gap l = weave [] ((sym, gap) :: l).
Proof. unfold weave. simpl. by rewrite <- app_assoc. Qed.

Lemma weave_cons_gap c gap l : c :: weave gap l = weave (c :: gap) l.
Proof. done. Qed.

Lemma frown_symbol : frown ∈ b64_symbols.
Proof. run_decide. Qed.

(** The scan either stops at the first unit that is neither a symbol, nor
    padding, nor whitespace, or collects the character of every symbol. *)
Lemma b64_scan_cases_upto n s chars :
  (length s ≤ n)%nat →
  (∃ gap0 l c post, s = weave gap0 l ++ c :: post
     ∧ all_space gap0 ∧ b64_woven l
     ∧ ([c] ∉ b64_symbols) ∧ cp_isspace c = false
     ∧ ¬ (c = 9785 ∧ head post = Some 65039)
     ∧ b64_scan s chars = inl (Failure (UnknownB64Emoji [c])))
  ∨ (∃ gap0 l, s = weave gap0 l ∧ all_space gap0 ∧ b64_woven l
     ∧ b64_scan s chars = inr (chars ++ map b64_token_char l.*1)).
Proof.
  revert s chars. induction n as [|n IH]; intros s chars Hlen.
  { destruct s; [|simpl in Hlen; lia]. right. exists [], [].
    split_and!; try constructor. simpl. by rewrite app_nil_r. }
  destruct s as [|c rest].
  { right. exists [], []. split_and!; try constructor. simpl. by rewrite app_nil_r. }
  simpl in Hlen. assert (Hrest : (length rest ≤ n)%nat) by lia.
  destruct (decide (c = 9785 ∧ head rest = Some 65039)) as [[-> Hh]|Hne].
  - destruct rest as [|c1 rest]; [done|]. injection Hh as ->.
    assert (Hrest' : (length rest ≤ n)%nat) by (simpl in Hrest; lia).
    rewrite b64_scan_frown, b64_unit_symbol by apply frown_symbol.
    destruct (IH rest (chars ++ [b64_token_char frown]) Hrest')
      as [(g & l & c & post & -> & Hg & Hl & Hc & Hs & Hp & Hscan)
         |(g & l & -> & Hg & Hl & Hscan)].
    + left. exists [], ((frown, g) :: l), c, post. split_and!; try done.
      * constructor.
      * constructor; [split; [apply frown_symbol|done]|done].
    + right. exists [], ((frown, g) :: l). split_and!; try done.
      * constructor.
      * constructor; [split; [apply frown_symbol|done]|done].
      * rewrite Hscan. simpl. by rewrite <- app_assoc.
  - rewrite b64_scan_single by done.
    destruct (cp_isspace c) eqn:Hsp; [|destruct (decide ([c] ∈ b64_symbols)) as [Hin|Hnin]].
    + rewrite b64_unit_space by done.
      destruct (IH rest chars Hrest)
        as [(g & l & c' & post & -> & Hg & Hl & Hc & Hs & Hp & Hscan)
           |(g & l & -> & Hg & Hl & Hscan)].
      * left. exists (c :: g), l, c', post. split_and!; try done. by constructor.
      * right. exists (c :: g), l. split_and!; try done. by constructor.
    + rewrite b64_unit_symbol by done.
      destruct (IH rest (chars ++ [b64_token_char [c]]) Hrest)
        as [(g & l & c' & post & -> & Hg & Hl & Hc & Hs & Hp & Hscan)
           |(g & l & -> & Hg & Hl & Hscan)].
      * left. exists [], (([c], g) :: l), c', post. split_and!; try done.
        -- constructor.
        -- by constructor.
      * right. exists [], (([c], g) :: l). split_and!; try done.
        -- constructor.
        -- by constructor.
        -- rewrite Hscan. simpl. by rewrite <- app_assoc.
    + left. exists [], [], c, rest. split_and!; try done; try constructor.
      by apply b64_unit_unknown.
Qed.

Lemma b64_scan_cases s chars :
  (∃ gap0 l c post, s = weave gap0 l ++ c :: post
     ∧ all_space gap0 ∧ b64_woven l
     ∧ ([c] ∉ b64_symbols) ∧ cp_isspace c = false
     ∧ ¬ (c = 9785 ∧ head post = Some 65039)
     ∧ b64_scan s chars = inl (Failure (UnknownB64Emoji [c])))
  ∨ (∃ gap0 l, s = weave gap0 l ∧ all_space gap0 ∧ b64_woven l
     ∧ b64_scan s chars = inr (chars ++ map b64_token_char l.*1)).
Proof. by apply (b64_scan_cases_upto (length s)). Qed.

Lemma decode_b64_emoji_unknown E gap0 l c post :
  all_space gap0 → b64_woven l →
  [c] ∉ b64_symbols → cp_isspace c = false →
  ¬ (c = 9785 ∧ head post = Some 65039) →
  decode_b64_emoji E (weave gap0 l ++ c :: post) = Failure (UnknownB64Emoji [c]).
Proof.
  intros H0 Hl Hc Hs Hp. unfold decode_b64_emoji.
  rewrite b64_scan_weave, b64_scan_single by done.
  by rewrite b64_unit_unknown.
Qed.

Lemma elem_of_weave c gap0 l :
  c ∈ weave gap0 l → c ∈ gap0 ∨ ∃ sg, sg ∈ l ∧ (c ∈ sg.1 ∨ c ∈ sg.2).
Proof.
  unfold weave. rewrite elem_of_app. intros [?|Hin]; [by left|right].
  induction l as [|sg l IH]; simpl in Hin; [by apply elem_of_nil in Hin|].
  rewrite !elem_of_app in Hin. destruct Hin as [[?|?]|Hin].
  - exists sg. split; [left|by left].
  - exists sg. split; [left|by right].
  - destruct (IH Hin) as (sg' & ? & ?). exists sg'. split; [by right|done].
Qed.

Lemma decode_b64_emoji_some_unknown E s c :
  c ∈ s → c ∉ concat b64_symbols → cp_isspace c = false →
  ∃ c', c' ∈ s ∧ ([c'] ∉ b64_symbols) ∧ cp_isspace c' = false
        ∧ decode_b64_emoji E s = Failure (UnknownB64Emoji [c']).
Proof.
  intros Hin Hc Hs.
  destruct (b64_scan_cases s [])
    as [(g & l & c' & post & -> & _ & _ & Hc' & Hs' & _ & Hscan)
       |(g & l & -> & Hg & Hl & _)].
  - exists c'. split; [apply elem_of_app; right; left|]. do 2 (split; [done|]).
    unfold decode_b64_emoji. by rewrite Hscan.
  - exfalso. apply elem_of_weave in Hin as [Hin|(sg & Hsg & [Hin|Hin])].
    + unfold all_space in Hg. rewrite Forall_forall in Hg.
      specialize (Hg _ Hin). congruence.
    + unfold b64_woven in Hl. rewrite Forall_forall in Hl.
      destruct (Hl _ Hsg) as [Hsym _]. apply Hc.
      apply list_elem_of_In, in_concat. exists sg.1.
      split; by apply list_elem_of_In.
    + unfold b64_woven in Hl. rewrite Forall_forall in Hl.
      destruct (Hl _ Hsg) as [_ Hgap]. unfold all_space in Hgap.
      rewrite Forall_forall in Hgap. specialize (Hgap _ Hin). congruence.
Qed.

(** ** The detectors *)

Lemma in_rev_hex_map_in_emoji_set ch :
  in_rev_hex_map ch = true → in_emoji_set ch = true.
Proof.
  intros Hm. apply in_rev_hex_map_true in Hm as (n & Hn & ->).
  revert n Hn. by_running 16%nat.
Qed.

Lemma HEX_EMOJI_16_prefix : take 16 BASE64_EMOJI_64 = HEX_EMOJI_16.
Proof. reflexivity. Qed.

Lemma looks_like_hex_emoji_b64 s :
  looks_like_hex_emoji s = true → looks_like_b64_emoji s = true.
Proof.
  unfold looks_like_hex_emoji, looks_like_b64_emoji.
  rewrite !andb_true_iff, !forallb_forall, !existsb_exists.
  intros [Hall (ch & Hin & Hch)]. split.
  - intros c Hc. specialize (Hall c Hc). apply orb_true_iff in Hall as [Hm|Hs].
    + by rewrite in_rev_hex_map_in_emoji_set.
    + rewrite Hs. apply orb_true_r.
  - exists ch. split; [done|]. by apply in_rev_hex_map_in_emoji_set.
Qed.

(** A stream holding the code point U+2639 is not accepted. *)
Lemma looks_like_b64_emoji_frown pre post :
  looks_like_b64_emoji (pre ++ frown ++ post) = false.
Proof.
  unfold looks_like_b64_emoji. apply andb_false_iff. left.
  apply not_true_is_false. rewrite forallb_forall. intros Hall.
  specialize (Hall 9785). discriminate Hall.
  apply in_or_app. right. by left.
Qed.

Lemma looks_like_hex_emoji_has_token s :
  looks_like_hex_emoji s = true → List.filter not_space s ≠ [].
Proof.
  unfold looks_like_hex_emoji. rewrite andb_true_iff, existsb_exists.
  intros [_ (ch & Hin & Hch)] Hnil.
  assert (Hf : In ch (List.filter not_space s)).
  { apply filter_In. split; [done|]. unfold not_space.
    destruct (cp_isspace ch) eqn:Hs; [|done].
    apply space_not_in_rev_hex_map in Hs. congruence. }
  rewrite Hnil in Hf. destruct Hf.
Qed.

(** ** Stripping *)

Lemma filter_drop_while p s :
  (∀ c, p c = true → cp_isspace c = true) →
  List.filter not_space (drop_while p s) = List.filter not_space s.
Proof.
  intros Hp. induction s as [|c s IH]; [done|]. cbn [drop_while].
  destruct (p c) eqn:Hc; [|done]. cbn [List.filter]. unfold not_space at 2.
  by rewrite (Hp c Hc).
Qed.

Lemma filter_rstrip p s :
  (∀ c, p c = true → cp_isspace c = true) →
  List.filter not_space (rstrip p s) = List.filter not_space s.
Proof.
  intros Hp. unfold rstrip.
  by rewrite List.filter_rev, filter_drop_while, <- List.filter_rev, rev_involutive.
Qed.

Lemma filter_strip s : List.filter not_space (strip s) = List.filter not_space s.
Proof.
  unfold strip, lstrip. by rewrite filter_rstrip, filter_drop_while.
Qed.

Lemma filter_rstrip_nl s :
  List.filter not_space (rstrip_nl s) = List.filter not_space s.
Proof.
  unfold rstrip_nl. apply filter_rstrip. intros c Hc. by apply N.eqb_eq in Hc as <-.
Qed.

Lemma decode_hex_emoji_stripped E s :
  decode_hex_emoji E (rstrip_nl s) = decode_hex_emoji E (strip s).
Proof.
  rewrite <- (decode_hex_emoji_drops_space E (rstrip_nl s)).
  rewrite <- (decode_hex_emoji_drops_space E (strip s)).
  by rewrite filter_rstrip_nl, filter_strip.
Qed.

(** ** Auto-Detect prefers the nibble scheme *)

Lemma auto_detect_decode_hex app :
  looks_like_hex_emoji (strip (input_get app)) = true →
  let app' := auto_detect_decode app in
  mode app' = hex ∧ direction app' = decode
  ∧ (output app', status app')
    = shown (decode_hex_emoji utf8 (strip (input_get app))).
Proof.
  intros Hhex. unfold auto_detect_decode.
  pose proof (looks_like_hex_emoji_has_token _ Hhex) as Hne.
  destruct (strip (input_get app)) as [|c text] eqn:Hstrip; [done|].
  rewrite Hhex. unfold run.
  change (input_get (set_mode hex decode app)) with (input_get app).
  rewrite <- Hstrip, filter_strip, <- filter_rstrip_nl in Hne.
  destruct (rstrip_nl (input_get app)) as [|c' text'] eqn:Hrs; [done|].
  rewrite <- Hrs, <- Hstrip.
  change (run_res (set_mode hex decode app) (rstrip_nl (input_get app)))
    with (decode_hex_emoji utf8 (rstrip_nl (input_get app))).
  rewrite decode_hex_emoji_stripped. unfold shown.
  by destruct (ok (decode_hex_emoji utf8 (strip (input_get app)))).
Qed.

(** The command line with [--decode] and the default [--mode hex] hands every
    stream the nibble detector accepts to the base-64 decoder. *)
Lemma cli_decode_hex_stream s :
  looks_like_hex_emoji s = true →
  cli_res (mkArgs false true hex) s = Some (decode_b64_emoji utf8 s).
Proof.
  intros Hhex. unfold cli_res. simpl.
  by rewrite (looks_like_hex_emoji_b64 s Hhex).
Qed.

(** ** Base-64 round trip away from the repeated glyphs *)

Lemma b64_val_char n : n < 64 → b64_val (b64_char n) = Some n.
Proof. revert n. by_running 64%nat. Qed.

Lemma b64_char_not_pad n : n < 64 → (b64_char n =? pad_char) = false.
Proof. revert n. by_running 64%nat. Qed.

Lemma b64_char_ascii n : n < 64 → (b64_char n <? 128) = true.
Proof. revert n. by_running 64%nat. Qed.

Lemma b64decode_b64encode_upto k raw :
  (length raw ≤ k)%nat → is_bytes raw → b64decode (b64encode raw) = Some raw.
Proof.
  revert raw. induction k as [|k IH]; intros raw Hlen Hraw.
  { destruct raw; [done|simpl in Hlen; lia]. }
  destruct Hraw as [|a raw Ha Hraw]; [done|].
  destruct Hraw as [|b raw Hb Hraw]; [|destruct Hraw as [|c raw Hc Hraw]];
    cbn [b64encode b64decode];
    rewrite ?b64_val_char, ?b64_char_not_pad by lia; cbn [mbind option_bind];
    rewrite ?N.eqb_refl; cbn [andb].
  - rewrite bool_decide_eq_true_2 by done. do 2 f_equal. lia.
  - rewrite bool_decide_eq_true_2 by done. f_equal. f_equal; [lia|]. f_equal. lia.
  - rewrite IH by (done || (simpl in Hlen; lia)). cbn [mbind option_bind].
    f_equal. f_equal; [lia|]. f_equal; [lia|]. f_equal. lia.
Qed.

Lemma b64decode_b64encode raw : is_bytes raw → b64decode (b64encode raw) = Some raw.
Proof. by apply (b64decode_b64encode_upto (length raw)). Qed.

Lemma b64encode_chars_upto k raw :
  (length raw ≤ k)%nat → is_bytes raw →
  Forall (λ ch, ch = pad_char ∨ ∃ n, n < 64 ∧ ch = b64_char n) (b64encode raw).
Proof.
  revert raw. induction k as [|k IH]; intros raw Hlen Hraw.
  { destruct raw; [constructor|simpl in Hlen; lia]. }
  destruct Hraw as [|a raw Ha Hraw]; [constructor|].
  destruct Hraw as [|b raw Hb Hraw]; [|destruct Hraw as [|c raw Hc Hraw]];
    cbn [b64encode];
    repeat (constructor; [first [by left | right; eexists; split; [|reflexivity]; lia]|]);
    try constructor.
  apply IH; [simpl in Hlen; lia|done].
Qed.

Lemma b64encode_chars raw :
  is_bytes raw →
  Forall (λ ch, ch = pad_char ∨ ∃ n, n < 64 ∧ ch = b64_char n) (b64encode raw).
Proof. by apply (b64encode_chars_upto (length raw)). Qed.

Lemma B64_TO_EMOJI_char n :
  n < 64 → B64_TO_EMOJI !! [b64_char n] = Some (nth (N.to_nat n) BASE64_EMOJI_64 []).
Proof. revert n. by_running 64%nat. Qed.

Lemma BASE64_EMOJI_64_symbol n :
  n < 64 → nth (N.to_nat n) BASE64_EMOJI_64 [] ∈ b64_symbols.
Proof. revert n. by_running 64%nat. Qed.

Lemma b64_token_char_once n :
  n < 64 →
  b64_char n ∈ repeated_b64_chars
  ∨ b64_token_char (nth (N.to_nat n) BASE64_EMOJI_64 []) = [b64_char n].
Proof. revert n. by_running 64%nat. Qed.

Lemma PADDING_EMOJI_symbol : PADDING_EMOJI ∈ b64_symbols.
Proof. run_decide. Qed.

Lemma b64_symbols_of_chars b64 :
  Forall (λ ch, ch = pad_char ∨ ∃ n, n < 64 ∧ ch = b64_char n) b64 →
  ∃ syms,
    mapM (λ ch, if ch =? pad_char then Some PADDING_EMOJI
                else B64_TO_EMOJI !! [ch]) b64 = Some syms
    ∧ Forall (λ sym, sym ∈ b64_symbols) syms
    ∧ (Forall (λ ch, ch ∉ repeated_b64_chars) b64 →
       map b64_token_char syms = map (λ ch, [ch]) b64).
Proof.
  induction 1 as [|ch b64 Hch _ (syms & Hm & Hsyms & Htok)].
  { exists []. split_and!; [done|constructor|done]. }
  cbn [mapM]. rewrite Hm.
  destruct Hch as [->|(n & Hn & ->)].
  - exists (PADDING_EMOJI :: syms). split_and!.
    + done.
    + constructor; [apply PADDING_EMOJI_symbol|done].
    + intros Hsafe. inversion Hsafe; subst. cbn [map]. by rewrite Htok.
  - exists (nth (N.to_nat n) BASE64_EMOJI_64 [] :: syms).
    rewrite b64_char_not_pad, B64_TO_EMOJI_char by done. split_and!.
    + done.
    + constructor; [by apply BASE64_EMOJI_64_symbol|done].
    + intros Hsafe. inversion Hsafe as [|?? Hn' Hsafe']; subst. cbn [map].
      rewrite Htok by done. destruct (b64_token_char_once n Hn) as [? | ->]; done.
Qed.

Lemma b64_chars_ascii b64 :
  Forall (λ ch, ch = pad_char ∨ ∃ n, n < 64 ∧ ch = b64_char n) b64 →
  ascii_decode b64 = Some b64.
Proof.
  intros Hall. unfold ascii_decode.
  replace (forallb (λ b, b <? 128) b64) with true; [done|].
  symmetry. apply forallb_forall. intros ch Hin.
  rewrite Forall_forall in Hall.
  destruct (Hall ch) as [->|(n & Hn & ->)]; [by apply list_elem_of_In|done|].
  by apply b64_char_ascii.
Qed.

Lemma b64_woven_no_gaps syms :
  Forall (λ sym, sym ∈ b64_symbols) syms → b64_woven (no_gaps syms).
Proof.
  induction 1 as [|sym syms Hs _ IH]; constructor; [|done].
  split; [done|constructor].
Qed.

(** The base-64 round trip holds for the texts whose base-64 form stays
    clear of the three characters whose glyph is listed twice. *)
Lemma base64_round_trip_without_repeats E `{!Lossless E} t raw :
  str_encode E t = Some raw →
  Forall (λ ch, ch ∉ repeated_b64_chars) (b64encode raw) →
  ∃ payload, encode_b64_emoji E t = Success payload
             ∧ decode_b64_emoji E payload = Success t.
Proof.
  intros Henc Hsafe. pose proof (encode_is_bytes _ _ Henc) as Hraw.
  pose proof (b64encode_chars raw Hraw) as Hchars.
  destruct (b64_symbols_of_chars _ Hchars) as (syms & Hm & Hsyms & Htok).
  exists (concat syms). unfold encode_b64_emoji, decode_b64_emoji.
  rewrite Henc, b64_chars_ascii, Hm by done. split; [done|].
  rewrite <- weave_plain, b64_scan_weave_nil, no_gaps_symbols;
    [|constructor|by apply b64_woven_no_gaps].
  rewrite Htok, concat_singletons, b64decode_b64encode by done.
  by rewrite (decode_encode _ _ Henc).
Qed.

(** * The claims *)

(** C1 — Base64 round-trip.  The statement (decoding the payload of
    [encode_b64_emoji t] gives back [t] for every text [t]) fails on the
    code: [EMOJI_TO_B64] keeps, for a glyph listed twice in
    [BASE64_EMOJI_64], only the later position.  The text "aac" encodes to
    the symbols of "YWFj" and decodes, without an error, to "aa|"; the text
    "P" encodes to the symbols of "UA==" and its payload fails to decode. *)
Theorem base64_round_trip_breaks :
  encode_b64_emoji utf8 [97; 97; 99] = Success [128529; 129320; 128517; 128564]
  ∧ decode_b64_emoji utf8 [128529; 129320; 128517; 128564] = Success [97; 97; 124]
  ∧ encode_b64_emoji utf8 [80] = Success [129303; 128512; 128998; 128998]
  ∧ decode_b64_emoji utf8 [129303; 128512; 128998; 128998]
    = Failure (Base64DecodeError UnicodeDecodeError).
Proof. repeat split; vm_compute; reflexivity. Qed.

(** C2 — Alphabet distinctness.  The 16 nibble symbols are pairwise
    distinct, and so is the padding symbol from the 64 value symbols; but
    [BASE64_EMOJI_64] lists three glyphs twice (positions 20 and 41, 35 and
    60, 36 and 61), so [EMOJI_TO_B64] does not invert [B64_TO_EMOJI] at
    positions 20, 35 and 36: "U" comes back as "p", "j" as "8", "k" as "9". *)
Theorem base64_alphabet_repeats :
  NoDup HEX_EMOJI_16
  ∧ (PADDING_EMOJI ∉ BASE64_EMOJI_64)
  ∧ ¬ NoDup BASE64_EMOJI_64
  ∧ BASE64_EMOJI_64 !! 20%nat = BASE64_EMOJI_64 !! 41%nat
  ∧ BASE64_EMOJI_64 !! 35%nat = BASE64_EMOJI_64 !! 60%nat
  ∧ BASE64_EMOJI_64 !! 36%nat = BASE64_EMOJI_64 !! 61%nat
  ∧ (B64_TO_EMOJI !! [85] ≫= (EMOJI_TO_B64 !!.)) = Some [112]
  ∧ (B64_TO_EMOJI !! [106] ≫= (EMOJI_TO_B64 !!.)) = Some [56]
  ∧ (B64_TO_EMOJI !! [107] ≫= (EMOJI_TO_B64 !!.)) = Some [57].
Proof. split_and!; try (vm_compute; reflexivity); run_decide. Qed.

(** C3 — Detector priority.  The Auto-Detect button gives the nibble scheme
    priority, the command line does not: with [--decode] and the default
    [--mode hex], the nibble-encoded stream of "Hi", which
    [looks_like_hex_emoji] accepts and [decode_hex_emoji] decodes to "Hi",
    is handed to [decode_b64_emoji], and [run_cli] exits with status 2. *)
Theorem cli_decode_lacks_nibble_priority :
  looks_like_hex_emoji [128516; 128522; 128518; 128578] = true
  ∧ decode_hex_emoji utf8 [128516; 128522; 128518; 128578] = Success [72; 105]
  ∧ cli_res (mkArgs false true hex) [128516; 128522; 128518; 128578]
    = Some (decode_b64_emoji utf8 [128516; 128522; 128518; 128578])
  ∧ run_cli (mkArgs false true hex) [128516; 128522; 128518; 128578]
    = (2, None, Some (Base64DecodeError UnicodeDecodeError)).
Proof. repeat split; vm_compute; reflexivity. Qed.

(** C4 — Nibble round-trip.  For a lossless byte encoding (UTF-8, Latin-1)
    and every text [t] the encoding can represent, [encode_hex_emoji]
    succeeds and [decode_hex_emoji] maps its payload back to [t]. *)
Theorem nibble_round_trip (E : Encoding) `{!Lossless E} (t : str) :
  is_Some (str_encode E t) →
  ∃ payload, encode_hex_emoji E t = Success payload
             ∧ decode_hex_emoji E payload = Success t.
Proof.
  intros [raw Henc]. exists (concat (spec_nibble_symbols raw)). split.
  - apply encode_hex_emoji_shape; [done|]. by eapply encode_is_bytes.
  - by apply decode_encode_hex_emoji.
Qed.

Lemma nibble_round_trip_witness :
  is_Some (str_encode utf8 [72; 105; 9731; 128512])
  ∧ ∃ payload, encode_hex_emoji utf8 [72; 105; 9731; 128512] = Success payload
               ∧ decode_hex_emoji utf8 payload = Success [72; 105; 9731; 128512].
Proof.
  assert (H : is_Some (str_encode utf8 [72; 105; 9731; 128512]))
    by (vm_compute; eauto).
  split; [exact H|]. exact (nibble_round_trip utf8 _ H).
Defined.

(** C5 — Whitespace insensitivity.  A stream written as symbols of the
    nibble alphabet, respectively of the base-64 alphabet with padding,
    decodes to the same [CodecResult] when runs of whitespace are put before
    the first symbol and after each symbol. *)
Theorem whitespace_insensitive (E : Encoding) (gap0 : str) (l : list (str * str)) :
  all_space gap0 → Forall (λ sg, all_space sg.2) l →
  (Forall (λ sg, sg.1 ∈ HEX_EMOJI_16) l →
   decode_hex_emoji E (weave gap0 l) = decode_hex_emoji E (concat l.*1))
  ∧ (Forall (λ sg, sg.1 ∈ b64_symbols) l →
     decode_b64_emoji E (weave gap0 l) = decode_b64_emoji E (concat l.*1)).
Proof.
  intros H0 Hl. split; intros Hsyms.
  - by apply decode_hex_emoji_weave.
  - apply decode_b64_emoji_weave; [done|]. unfold b64_woven.
    rewrite Forall_forall in *. intros sg Hsg. split; [by apply Hsyms|by apply Hl].
Qed.

Lemma whitespace_insensitive_witness :
  let l := [([128516], [10]); ([128522], [9; 32]); ([128518], []); ([128578], [10])] in
  (all_space [32] ∧ Forall (λ sg : str * str, all_space sg.2) l
   ∧ Forall (λ sg : str * str, sg.1 ∈ HEX_EMOJI_16) l
   ∧ Forall (λ sg : str * str, sg.1 ∈ b64_symbols) l)
  ∧ decode_hex_emoji utf8 (weave [32] l) = decode_hex_emoji utf8 (concat l.*1)
  ∧ decode_b64_emoji utf8 (weave [32] l) = decode_b64_emoji utf8 (concat l.*1).
Proof.
  intros l.
  assert (H0 : all_space [32]) by (repeat constructor).
  assert (Hl : Forall (λ sg : str * str, all_space sg.2) l) by (repeat constructor).
  assert (Hhex : Forall (λ sg : str * str, sg.1 ∈ HEX_EMOJI_16) l)
    by (repeat constructor).
  assert (Hb64 : Forall (λ sg : str * str, sg.1 ∈ b64_symbols) l)
    by (repeat constructor).
  split; [done|].
  destruct (whitespace_insensitive utf8 [32] l H0 Hl) as [H1 H2].
  split; [exact (H1 Hhex)|exact (H2 Hb64)].
Defined.

(** C6 — Malformed length.  A stream with an odd number of nibble tokens
    never decodes to a [Success], and when it holds nothing but symbols and
    whitespace the failure is the odd-length one; in particular, taking one
    symbol out of a stream of symbols and whitespace with an even number of
    tokens gives a stream that fails with the odd-length message. *)
Theorem malformed_length (E : Encoding) :
  (∀ s, Nat.odd (length (hex_tokens s)) = true →
        ok (decode_hex_emoji E s) = false
        ∧ (hex_clean s → decode_hex_emoji E s = Failure OddLengthHex))
  ∧ (∀ pre x post,
        hex_clean (pre ++ x :: post) → in_rev_hex_map x = true →
        Nat.even (length (hex_tokens (pre ++ x :: post))) = true →
        decode_hex_emoji E (pre ++ post) = Failure OddLengthHex).
Proof.
  split.
  - intros s. apply decode_hex_emoji_odd.
  - intros pre x post. apply decode_hex_emoji_removed.
Qed.

Lemma malformed_length_witness :
  (Nat.odd (length (hex_tokens [128516; 32; 128522; 128518])) = true
   ∧ hex_clean [128516; 32; 128522; 128518]
   ∧ decode_hex_emoji utf8 [128516; 32; 128522; 128518] = Failure OddLengthHex)
  ∧ (hex_clean ([128516; 128522] ++ 128518 :: [128578])
     ∧ in_rev_hex_map 128518 = true
     ∧ Nat.even (length (hex_tokens ([128516; 128522] ++ 128518 :: [128578]))) = true
     ∧ decode_hex_emoji utf8 ([128516; 128522] ++ [128578]) = Failure OddLengthHex).
Proof.
  assert (Hodd : Nat.odd (length (hex_tokens [128516; 32; 128522; 128518])) = true)
    by reflexivity.
  assert (Hcl : hex_clean [128516; 32; 128522; 128518])
    by (repeat constructor; (by left) || (by right)).
  assert (Hcl' : hex_clean ([128516; 128522] ++ 128518 :: [128578]))
    by (repeat constructor; by left).
  assert (Hx : in_rev_hex_map 128518 = true) by reflexivity.
  assert (Hev : Nat.even (length (hex_tokens ([128516; 128522] ++ 128518 :: [128578])))
                = true) by reflexivity.
  destruct (malformed_length utf8) as [H1 H2].
  split.
  - split; [exact Hodd|]. split; [exact Hcl|].
    exact (proj2 (H1 _ Hodd) Hcl).
  - split; [exact Hcl'|]. split; [exact Hx|]. split; [exact Hev|].
    exact (H2 _ _ _ Hcl' Hx Hev).
Defined.

(** C7 — Nibble encoding shape.  When the text encodes to the bytes [raw],
    the payload of [encode_hex_emoji] is, byte after byte, the symbol of the
    high nibble followed by the symbol of the low nibble; it has twice as
    many symbols as [raw] has bytes, each symbol one code point. *)
Theorem nibble_encoding_shape (E : Encoding) (t : str) (raw : bytes) :
  str_encode E t = Some raw → is_bytes raw →
  encode_hex_emoji E t = Success (concat (spec_nibble_symbols raw))
  ∧ length (spec_nibble_symbols raw) = (2 * length raw)%nat
  ∧ length (data (encode_hex_emoji E t)) = (2 * length raw)%nat.
Proof.
  intros Henc Hraw. rewrite (encode_hex_emoji_shape E t raw) by done.
  split_and!; [done|apply spec_nibble_symbols_length|].
  by apply spec_nibble_symbols_concat_length.
Qed.

Lemma nibble_encoding_shape_witness :
  (str_encode utf8 [72; 105] = Some [72; 105] ∧ is_bytes [72; 105])
  ∧ encode_hex_emoji utf8 [72; 105]
    = Success (concat [[128516]; [128522]; [128518]; [128578]])
  ∧ length (spec_nibble_symbols [72; 105]) = 4%nat
  ∧ length (data (encode_hex_emoji utf8 [72; 105])) = 4%nat.
Proof.
  assert (Henc : str_encode utf8 [72; 105] = Some [72; 105]) by reflexivity.
  assert (Hraw : is_bytes [72; 105]) by (repeat constructor).
  split; [done|]. exact (nibble_encoding_shape utf8 _ _ Henc Hraw).
Defined.

(** C8 — Unrecognized symbol.  When the first unit of the input that is
    neither whitespace nor a symbol of the active alphabet is the code point
    [c], the decoder returns the [Failure] whose message carries exactly
    [c]; and every input holding such a code point is answered with an
    "Unknown emoji" [Failure] that carries one of its unrecognized units.
    For the base-64 decoder a unit is the pair U+2639 U+FE0F where it
    stands, and one code point otherwise. *)
Theorem unrecognized_symbol (E : Encoding) :
  (∀ pre c post,
      hex_clean pre → [c] ∉ HEX_EMOJI_16 → cp_isspace c = false →
      decode_hex_emoji E (pre ++ c :: post) = Failure (UnknownHexEmoji [c]))
  ∧ (∀ gap0 l c post,
      all_space gap0 → b64_woven l →
      [c] ∉ b64_symbols → cp_isspace c = false →
      ¬ (c = 9785 ∧ head post = Some 65039) →
      decode_b64_emoji E (weave gap0 l ++ c :: post) = Failure (UnknownB64Emoji [c]))
  ∧ (∀ s c,
      c ∈ s → [c] ∉ HEX_EMOJI_16 → cp_isspace c = false →
      ∃ c', c' ∈ s ∧ ([c'] ∉ HEX_EMOJI_16) ∧ cp_isspace c' = false
            ∧ decode_hex_emoji E s = Failure (UnknownHexEmoji [c']))
  ∧ (∀ s c,
      c ∈ s → c ∉ concat b64_symbols → cp_isspace c = false →
      ∃ c', c' ∈ s ∧ ([c'] ∉ b64_symbols) ∧ cp_isspace c' = false
            ∧ decode_b64_emoji E s = Failure (UnknownB64Emoji [c'])).
Proof.
  split_and!.
  - intros pre c post. apply decode_hex_emoji_unknown.
  - intros gap0 l c post. apply decode_b64_emoji_unknown.
  - intros s c. apply decode_hex_emoji_some_unknown.
  - intros s c. apply decode_b64_emoji_some_unknown.
Qed.

Lemma unrecognized_symbol_witness :
  (hex_clean [128516; 32] ∧ ([65] ∉ HEX_EMOJI_16) ∧ cp_isspace 65 = false
   ∧ decode_hex_emoji utf8 ([128516; 32] ++ 65 :: [128522])
     = Failure (UnknownHexEmoji [65]))
  ∧ (all_space [32] ∧ b64_woven [([128529], [10]); (frown, [])]
     ∧ ([65] ∉ b64_symbols) ∧ cp_isspace 65 = false
     ∧ ¬ (65 = 9785 ∧ head [128516] = Some 65039)
     ∧ decode_b64_emoji utf8 (weave [32] [([128529], [10]); (frown, [])] ++ 65 :: [128516])
       = Failure (UnknownB64Emoji [65])).
Proof.
  assert (Hpre : hex_clean [128516; 32])
    by (repeat constructor; (by left) || (by right)).
  assert (Hnin : [65] ∉ HEX_EMOJI_16) by run_decide.
  assert (Hs : cp_isspace 65 = false) by reflexivity.
  assert (H0 : all_space [32]) by (repeat constructor).
  assert (Hl : b64_woven [([128529], [10]); (frown, [])]).
  { repeat constructor; simpl; run_decide. }
  assert (Hnin' : [65] ∉ b64_symbols) by run_decide.
  assert (Hp : ¬ (65 = 9785 ∧ head [128516] = Some 65039)) by (by intros [? _]).
  destruct (unrecognized_symbol utf8) as (H1 & H2 & _ & _).
  split.
  - split; [exact Hpre|]. split; [exact Hnin|]. split; [exact Hs|].
    exact (H1 _ _ _ Hpre Hnin Hs).
  - split; [exact H0|]. split; [exact Hl|]. split; [exact Hnin'|].
    split; [exact Hs|]. split; [exact Hp|].
    exact (H2 _ _ _ _ H0 Hl Hnin' Hs Hp).
Defined.

(** C9 — Detector containment.  Every stream [looks_like_hex_emoji] accepts
    is accepted by [looks_like_b64_emoji] as well (the nibble alphabet is
    the first 16 entries of the base-64 alphabet). *)
Theorem detector_containment (s : str) :
  looks_like_hex_emoji s = true → looks_like_b64_emoji s = true.
Proof. apply looks_like_hex_emoji_b64. Qed.

Lemma detector_containment_witness :
  looks_like_hex_emoji [128516; 32; 128522] = true
  ∧ looks_like_b64_emoji [128516; 32; 128522] = true.
Proof.
  assert (H : looks_like_hex_emoji [128516; 32; 128522] = true) by reflexivity.
  split; [exact H|]. exact (detector_containment _ H).
Defined.

(** C10 — Detector incompleteness.  The text "aa1" encodes to a payload
    that ends in the two-code-point symbol U+2639 U+FE0F; the payload
    decodes back to "aa1", yet [looks_like_b64_emoji] rejects it, as it
    rejects every stream in which that symbol occurs. *)
Theorem detector_rejects_frown :
  (∃ t payload pre,
      encode_b64_emoji utf8 t = Success payload
      ∧ payload = pre ++ frown
      ∧ decode_b64_emoji utf8 payload = Success t
      ∧ looks_like_b64_emoji payload = false)
  ∧ (frown ∈ BASE64_EMOJI_64)
  ∧ (∀ pre post, looks_like_b64_emoji (pre ++ frown ++ post) = false).
Proof.
  split_and!.
  - exists [97; 97; 49], [128529; 129320; 128516; 9785; 65039], [128529; 129320; 128516].
    split_and!; vm_compute; reflexivity.
  - run_decide.
  - apply looks_like_b64_emoji_frown.
Qed.

(** * Further properties *)

(** ** Whitespace anywhere *)

Lemma b64_unit_ext ch f g chars :
  (∀ chars', f chars' = g chars') → b64_unit ch f chars = b64_unit ch g chars.
Proof.
  intros Hfg. unfold b64_unit. destruct (isspace ch); [done|].
  case_bool_decide; [done|]. by destruct (EMOJI_TO_B64 !! ch).
Qed.

Lemma b64_scan_drops_space s chars :
  9785 ∉ s → b64_scan (List.filter not_space s) chars = b64_scan s chars.
Proof.
  revert chars. induction s as [|c s IH]; intros chars Hs; [done|].
  apply not_elem_of_cons in Hs as [Hc Hs].
  rewrite (b64_scan_single c s) by (intros [? _]; congruence).
  cbn [List.filter]. unfold not_space at 1. destruct (cp_isspace c) eqn:Hsp; cbn [negb].
  - rewrite b64_unit_space by done. by apply IH.
  - rewrite b64_scan_single by (intros [? _]; congruence).
    apply b64_unit_ext. intros chars'. by apply IH.
Qed.

(** X1 — The nibble decoder skips whitespace wherever it stands: a stream,
    well-formed or not, and the stream without its whitespace code points
    decode to the same [CodecResult]. *)
Theorem nibble_decoder_skips_whitespace (E : Encoding) (s : str) :
  decode_hex_emoji E s = decode_hex_emoji E (List.filter not_space s).
Proof. symmetry. apply decode_hex_emoji_drops_space. Qed.

(** X2 — The base-64 decoder skips whitespace wherever it stands in a
    stream without the code point U+2639, the only one that opens a
    two-code-point window. *)
Theorem base64_decoder_skips_whitespace (E : Encoding) (s : str) :
  9785 ∉ s →
  decode_b64_emoji E s = decode_b64_emoji E (List.filter not_space s).
Proof. intros Hs. unfold decode_b64_emoji. by rewrite b64_scan_drops_space. Qed.

Lemma base64_decoder_skips_whitespace_witness :
  (9785 ∉ [32; 128529; 10; 129320; 128516; 32; 128998])
  ∧ decode_b64_emoji utf8 [32; 128529; 10; 129320; 128516; 32; 128998]
    = decode_b64_emoji utf8 (List.filter not_space [32; 128529; 10; 129320; 128516; 32; 128998]).
Proof.
  assert (H : 9785 ∉ [32; 128529; 10; 129320; 128516; 32; 128998]) by run_decide.
  split; [exact H|]. exact (base64_decoder_skips_whitespace utf8 _ H).
Defined.

(** Whitespace inside the two-code-point symbol is not skipped. *)
Lemma base64_decoder_split_frown :
  decode_b64_emoji utf8 [128529; 129320; 128516; 9785; 65039] = Success [97; 97; 49]
  ∧ decode_b64_emoji utf8 [128529; 129320; 128516; 9785; 32; 65039]
    = Failure (UnknownB64Emoji [9785]).
Proof. split; vm_compute; reflexivity. Qed.

(** ** Blank input *)

Lemma decode_blank E s :
  all_space s → bytes_decode E [] = Some [] →
  decode_hex_emoji E s = Success [] ∧ decode_b64_emoji E s = Success [].
Proof.
  intros Hs HE. split.
  - rewrite <- decode_hex_emoji_drops_space, filter_all_space by done.
    unfold decode_hex_emoji. simpl. by rewrite HE.
  - unfold decode_b64_emoji. rewrite <- (app_nil_r s), b64_scan_gap by done.
    simpl. by rewrite HE.
Qed.

(** X3 — A stream of nothing but whitespace, the empty stream included, is
    not an error: both decoders return the empty text (the byte decoding of
    no bytes being the empty text, as for UTF-8). *)
Theorem blank_stream_decodes_to_empty (E : Encoding) (s : str) :
  all_space s → bytes_decode E [] = Some [] →
  decode_hex_emoji E s = Success [] ∧ decode_b64_emoji E s = Success [].
Proof. apply decode_blank. Qed.

Lemma blank_stream_decodes_to_empty_witness :
  (all_space [32; 10; 9; 12288] ∧ bytes_decode utf8 [] = Some [])
  ∧ decode_hex_emoji utf8 [32; 10; 9; 12288] = Success []
  ∧ decode_b64_emoji utf8 [32; 10; 9; 12288] = Success [].
Proof.
  assert (Hs : all_space [32; 10; 9; 12288]) by (repeat constructor).
  assert (HE : bytes_decode utf8 [] = Some []) by reflexivity.
  split; [done|]. exact (blank_stream_decodes_to_empty utf8 _ Hs HE).
Defined.

(** ** Strict UTF-8 decoding is injective *)

Ltac utf8_back IH r :=
  let t' := fresh "t'" in
  let Hr := fresh "Hr" in
  destruct (Utf8.decode r) as [t'|] eqn:Hr; intros [= <-];
  cbn [Utf8.encode]; unfold Utf8.encode_cp, Utf8.is_surrogate, max_codepoint;
  decide_cmp; cbn [mbind option_bind];
  rewrite (IH r t') by (done || lia); cbn [mbind option_bind app];
  repeat (f_equal; try lia).

Lemma utf8_encode_decode_upto k bs t :
  (length bs ≤ k)%nat → Utf8.decode bs = Some t → Utf8.encode t = Some bs.
Proof.
  revert bs t. induction k as [|k IH]; intros bs t Hlen.
  { destruct bs; [|simpl in Hlen; lia]. by intros [= <-]. }
  destruct bs as [|b0 r0]; [by intros [= <-]|]. simpl in Hlen.
  cbn [Utf8.decode]. unfold Utf8.is_cont, Utf8.is_surrogate, max_codepoint.
  destruct (N.ltb_spec b0 0x80); [utf8_back IH r0|].
  destruct (N.ltb_spec b0 0xC2); [done|].
  destruct (N.ltb_spec b0 0xE0).
  { destruct r0 as [|b1 r1]; [done|]. simpl in Hlen.
    decide_cmp; try done; utf8_back IH r1. }
  destruct (N.ltb_spec b0 0xF0).
  { destruct r0 as [|b1 [|b2 r2]]; [done..|]. simpl in Hlen.
    cbv zeta. decide_cmp; try done; utf8_back IH r2. }
  destruct (N.ltb_spec b0 0xF5); [|done].
  destruct r0 as [|b1 [|b2 [|b3 r3]]]; [done..|]. simpl in Hlen.
  cbv zeta. decide_cmp; try done; utf8_back IH r3.
Qed.

#[global] Instance utf8_canonical : Canonical utf8.
Proof. intros raw t _. by apply (utf8_encode_decode_upto (length raw)). Qed.

#[global] Instance latin1_canonical : Canonical latin1.
Proof.
  intros raw t Hraw [= <-]. simpl. unfold Latin1.encode.
  replace (forallb (λ c, c <? 256) raw) with true; [done|].
  symmetry. apply forallb_forall. intros c Hc.
  unfold is_bytes in Hraw. rewrite Forall_forall in Hraw.
  apply N.ltb_lt, Hraw. by apply list_elem_of_In.
Qed.

(** ** How the nibble decoder pairs tokens *)

Lemma hex_clean_nibbles s :
  hex_clean s →
  ∃ nibs, Forall (λ n, n < 16) nibs
          ∧ List.filter not_space s = map hex_sym nibs
          ∧ hex_tokens s = map hex_sym nibs
          ∧ concat (map hex_token_digit (hex_tokens s)) = map hex_digit nibs.
Proof.
  induction 1 as [|ch s [Hm|Hs] _ (nibs & Hn & Hf & Ht & Hd)].
  - exists []. split_and!; [constructor|done..].
  - destruct (in_rev_hex_map_true _ Hm) as (n & Hlt & ->).
    exists (n :: nibs). unfold hex_tokens in *. cbn [List.filter map concat].
    unfold not_space at 1. rewrite hex_sym_not_space, Hm by done. cbn [negb map concat].
    unfold hex_token_digit at 1. rewrite REV_HEX_MAP_sym by done.
    split_and!; [by constructor|by rewrite Hf|by rewrite Ht|by rewrite Hd].
  - exists nibs. unfold hex_tokens in *. cbn [List.filter].
    unfold not_space at 1. rewrite Hs, space_not_in_rev_hex_map by done. done.
Qed.

Lemma hex_clean_symbols nibs :
  Forall (λ n, n < 16) nibs → hex_clean (map hex_sym nibs).
Proof.
  induction 1 as [|n nibs Hn _ IH]; constructor; [|done].
  left. by apply in_rev_hex_map_sym.
Qed.

Lemma hex_tokens_symbols nibs :
  Forall (λ n, n < 16) nibs → hex_tokens (map hex_sym nibs) = map hex_sym nibs.
Proof.
  induction 1 as [|n nibs Hn _ IH]; [done|]. unfold hex_tokens in *.
  cbn [map List.filter]. by rewrite in_rev_hex_map_sym, IH.
Qed.

Lemma hex_token_digits_symbols nibs :
  Forall (λ n, n < 16) nibs →
  concat (map hex_token_digit (map hex_sym nibs)) = map hex_digit nibs.
Proof.
  induction 1 as [|n nibs Hn _ IH]; [done|]. cbn [map concat].
  unfold hex_token_digit at 1. rewrite REV_HEX_MAP_sym by done. by rewrite IH.
Qed.

Lemma bytes_fromhex_digits_upto k nibs :
  (length nibs ≤ k)%nat → Forall (λ n, n < 16) nibs →
  Nat.even (length nibs) = true →
  bytes_fromhex (map hex_digit nibs) = Some (pair_up nibs).
Proof.
  revert nibs. induction k as [|k IH]; intros nibs Hlen Hn Hev.
  { destruct nibs; [done|simpl in Hlen; lia]. }
  destruct Hn as [|hi nibs Hhi Hn]; [done|].
  destruct Hn as [|lo nibs Hlo Hn]; [done|].
  cbn [map bytes_fromhex pair_up].
  rewrite hex_digit_not_space, !hex_val_digit by done. cbn [mbind option_bind].
  rewrite IH; [done|simpl in Hlen; lia|done|done].
Qed.

Lemma bytes_fromhex_digits nibs :
  Forall (λ n, n < 16) nibs → Nat.even (length nibs) = true →
  bytes_fromhex (map hex_digit nibs) = Some (pair_up nibs).
Proof. by apply (bytes_fromhex_digits_upto (length nibs)). Qed.

Lemma pair_up_bytes_upto k nibs :
  (length nibs ≤ k)%nat → Forall (λ n, n < 16) nibs →
  is_bytes (pair_up nibs)
  ∧ (Nat.even (length nibs) = true → nibbles_of_bytes (pair_up nibs) = nibs).
Proof.
  revert nibs. induction k as [|k IH]; intros nibs Hlen Hn.
  { destruct nibs; [|simpl in Hlen; lia]. split; [constructor|done]. }
  destruct Hn as [|hi nibs Hhi Hn]; [split; [constructor|done]|].
  destruct Hn as [|lo nibs Hlo Hn]; [split; [constructor|done]|].
  destruct (IH nibs) as [Hb Hback]; [simpl in Hlen; lia|done|].
  cbn [pair_up]. split.
  - constructor; [lia|done].
  - intros Hev. unfold nibbles_of_bytes in *. cbn [flat_map app].
    rewrite Hback by done. f_equal; [lia|]. f_equal. lia.
Qed.

Lemma spec_nibble_symbols_nibbles raw :
  is_bytes raw →
  concat (spec_nibble_symbols raw) = map hex_sym (nibbles_of_bytes raw).
Proof.
  induction 1 as [|b raw Hb _ IH]; [done|].
  unfold nibbles_of_bytes in *.
  cbn [spec_nibble_symbols flat_map app concat map].
  fold (spec_nibble_symbols raw).
  rewrite !HEX_EMOJI_16_nth by lia. cbn [app]. by rewrite IH.
Qed.

(** X4 — The nibble decoder pairs tokens into bytes, the first token of a
    pair being the high nibble: an even number of symbols decodes to the
    text of the paired bytes, or fails with the byte decoder's error when
    the bytes are no text of the encoding.  [bytes.fromhex] never fails. *)
Theorem nibble_decoder_pairs_tokens (E : Encoding) (nibs : list N) :
  Forall (λ n, n < 16) nibs → Nat.even (length nibs) = true →
  decode_hex_emoji E (map hex_sym nibs) =
  match bytes_decode E (pair_up nibs) with
  | Some text => Success text
  | None => Failure (ExnText UnicodeDecodeError)
  end.
Proof.
  intros Hn Hev.
  rewrite decode_hex_emoji_clean by by apply hex_clean_symbols.
  rewrite hex_tokens_symbols, length_map by done.
  rewrite <- Nat.negb_even, Hev. cbn [negb].
  by rewrite hex_token_digits_symbols, bytes_fromhex_digits.
Qed.

Lemma nibble_decoder_pairs_tokens_witness :
  (Forall (λ n, n < 16) [4; 8; 6; 9] ∧ Nat.even (length [4; 8; 6; 9]) = true)
  ∧ decode_hex_emoji utf8 (map hex_sym [4; 8; 6; 9]) =
    match bytes_decode utf8 (pair_up [4; 8; 6; 9]) with
    | Some text => Success text
    | None => Failure (ExnText UnicodeDecodeError)
    end.
Proof.
  assert (Hn : Forall (λ n, n < 16) [4; 8; 6; 9]) by (repeat constructor).
  assert (Hev : Nat.even (length [4; 8; 6; 9]) = true) by reflexivity.
  split; [done|]. exact (nibble_decoder_pairs_tokens utf8 _ Hn Hev).
Defined.

(** X5 — The failures of the nibble decoder.  Whatever the input, the
    result is a [Success], or the "Unknown emoji" failure for a code point
    of the input that is neither a symbol nor whitespace, or the odd-length
    failure, or the byte decoder's error; no other exception text is ever
    returned. *)
Theorem nibble_decoder_outcomes (E : Encoding) (s : str) :
  (∃ text, decode_hex_emoji E s = Success text)
  ∨ (∃ c, c ∈ s ∧ ([c] ∉ HEX_EMOJI_16) ∧ cp_isspace c = false
          ∧ decode_hex_emoji E s = Failure (UnknownHexEmoji [c]))
  ∨ decode_hex_emoji E s = Failure OddLengthHex
  ∨ decode_hex_emoji E s = Failure (ExnText UnicodeDecodeError).
Proof.
  destruct (hex_scan_cases s []) as [(pre & c & post & -> & _ & Hm & Hs & Hscan)|[Hcl _]].
  - right. left. exists c. split_and!; try done.
    + apply elem_of_app. right. left.
    + by rewrite <- in_rev_hex_map_iff, Hm.
    + unfold decode_hex_emoji. by rewrite Hscan.
  - rewrite decode_hex_emoji_clean by done.
    destruct (Nat.odd (length (hex_tokens s))) eqn:Hodd; [by right; right; left|].
    destruct (hex_clean_nibbles s Hcl) as (nibs & Hn & _ & Ht & Hd).
    rewrite Hd, bytes_fromhex_digits; [| done |].
    + destruct (bytes_decode E (pair_up nibs)); [left; eauto|by right; right; right].
    + rewrite Ht, length_map in Hodd. by rewrite <- Nat.negb_odd, Hodd.
Qed.

(** X6 — Decoding is undone by encoding, up to whitespace: when the nibble
    decoder turns a stream into the text [t], encoding [t] gives the stream
    without its whitespace (for an encoding under which every byte string
    has at most one text, such as UTF-8). *)
Theorem nibble_encode_after_decode (E : Encoding) `{!Canonical E} (s t : str) :
  decode_hex_emoji E s = Success t →
  encode_hex_emoji E t = Success (List.filter not_space s).
Proof.
  intros Hdec.
  destruct (hex_scan_cases s []) as [(pre & c & post & -> & _ & _ & _ & Hscan)|[Hcl _]].
  { unfold decode_hex_emoji in Hdec. by rewrite Hscan in Hdec. }
  rewrite decode_hex_emoji_clean in Hdec by done.
  destruct (Nat.odd (length (hex_tokens s))) eqn:Hodd; [done|].
  destruct (hex_clean_nibbles s Hcl) as (nibs & Hn & Hf & Ht & Hd).
  assert (Hev : Nat.even (length nibs) = true).
  { rewrite Ht, length_map in Hodd. by rewrite <- Nat.negb_odd, Hodd. }
  rewrite Hd, bytes_fromhex_digits in Hdec by done.
  destruct (bytes_decode E (pair_up nibs)) as [t'|] eqn:Hbytes; [|done].
  injection Hdec as ->.
  destruct (pair_up_bytes_upto (length nibs) nibs) as [Hb Hback]; [done..|].
  rewrite (encode_hex_emoji_shape E t (pair_up nibs)); [|by apply encode_decode|done].
  by rewrite spec_nibble_symbols_nibbles, Hback, Hf.
Qed.

Lemma nibble_encode_after_decode_witness :
  decode_hex_emoji utf8 [32; 128516; 128522; 10; 128518; 128578] = Success [72; 105]
  ∧ encode_hex_emoji utf8 [72; 105]
    = Success (List.filter not_space [32; 128516; 128522; 10; 128518; 128578]).
Proof.
  assert (H : decode_hex_emoji utf8 [32; 128516; 128522; 10; 128518; 128578]
              = Success [72; 105]) by reflexivity.
  split; [exact H|]. exact (nibble_encode_after_decode utf8 _ _ H).
Defined.

(** ** When encoding fails *)

Lemma utf8_encode_cp_scalar c :
  Utf8.encode_cp c = None ↔ utf8_scalar c = false.
Proof.
  unfold Utf8.encode_cp, utf8_scalar, Utf8.is_surrogate, max_codepoint.
  decide_cmp; split; (done || (intros; exfalso; lia)).
Qed.

Lemma utf8_encode_scalar t :
  Utf8.encode t = None ↔ forallb utf8_scalar t = false.
Proof.
  induction t as [|c t IH]; [done|]. cbn [Utf8.encode forallb].
  destruct (Utf8.encode_cp c) as [b|] eqn:Hc.
  - assert (utf8_scalar c = true) as ->.
    { destruct (utf8_scalar c) eqn:E; [done|].
      apply utf8_encode_cp_scalar in E. congruence. }
    cbn [mbind option_bind andb]. rewrite <- IH.
    by destruct (Utf8.encode t).
  - apply utf8_encode_cp_scalar in Hc as ->. done.
Qed.

Lemma encode_b64_emoji_ok E t raw :
  str_encode E t = Some raw → is_bytes raw → ok (encode_b64_emoji E t) = true.
Proof.
  intros Henc Hraw. pose proof (b64encode_chars raw Hraw) as Hchars.
  destruct (b64_symbols_of_chars _ Hchars) as (syms & Hm & _).
  unfold encode_b64_emoji. by rewrite Henc, b64_chars_ascii, Hm.
Qed.

(** X7 — Under UTF-8 both encoders succeed exactly on the texts made of
    encodable code points (up to U+10FFFF, no surrogate); on any other text
    both return the failure of the Unicode encode error, and never a
    [KeyError]. *)
Theorem encoders_fail_on_unencodable (t : str) :
  (forallb utf8_scalar t = true
   ∧ ok (encode_hex_emoji utf8 t) = true ∧ ok (encode_b64_emoji utf8 t) = true)
  ∨ (forallb utf8_scalar t = false
     ∧ encode_hex_emoji utf8 t = Failure (ExnText UnicodeEncodeError)
     ∧ encode_b64_emoji utf8 t = Failure (ExnText UnicodeEncodeError)).
Proof.
  destruct (str_encode utf8 t) as [raw|] eqn:Henc;
    pose proof Henc as Henc'; change (str_encode utf8 t) with (Utf8.encode t) in Henc'.
  - left. assert (Hraw : is_bytes raw) by by apply (encode_is_bytes (E:=utf8) t).
    split_and!.
    + destruct (forallb utf8_scalar t) eqn:E; [done|].
      apply utf8_encode_scalar in E. congruence.
    + by rewrite (encode_hex_emoji_shape utf8 t raw).
    + by apply (encode_b64_emoji_ok utf8 t raw).
  - right. split_and!.
    + by apply utf8_encode_scalar.
    + unfold encode_hex_emoji. by rewrite Henc.
    + unfold encode_b64_emoji. by rewrite Henc.
Qed.

(** ** Shape of the base-64 encoding *)

Lemma b64_padding_step n : b64_padding (3 + n) = b64_padding n.
Proof.
  unfold b64_padding. replace ((3 + n) mod 3)%nat with (n mod 3)%nat; [done|].
  replace (3 + n)%nat with (n + 1 * 3)%nat by lia. by rewrite Nat.Div0.mod_add.
Qed.

Lemma b64_groups_step n : (4 * ((3 + n + 2) / 3) = 4 + 4 * ((n + 2) / 3))%nat.
Proof.
  replace (3 + n + 2)%nat with (n + 2 + 1 * 3)%nat by lia.
  rewrite Nat.div_add by lia. lia.
Qed.

Lemma b64encode_shape_upto k raw :
  (length raw ≤ k)%nat → is_bytes raw →
  ∃ body, Forall (λ n, n < 64) body
          ∧ b64encode raw = map b64_char body ++ replicate (b64_padding (length raw)) pad_char
          ∧ (length body + b64_padding (length raw) = 4 * ((length raw + 2) / 3))%nat.
Proof.
  revert raw. induction k as [|k IH]; intros raw Hlen Hraw.
  { destruct raw; [|simpl in Hlen; lia]. exists []. split_and!; [constructor|done..]. }
  destruct Hraw as [|a raw Ha Hraw].
  { exists []. split_and!; [constructor|done..]. }
  destruct Hraw as [|b raw Hb Hraw].
  { exists [a / 4; (a mod 4) * 16]. split_and!; [|done..].
    repeat constructor; lia. }
  destruct Hraw as [|c raw Hc Hraw].
  { exists [a / 4; (a mod 4) * 16 + b / 16; (b mod 16) * 4]. split_and!; [|done..].
    repeat constructor; lia. }
  destruct (IH raw) as (body & Hbody & Henc & Hlen'); [simpl in Hlen; lia|done|].
  exists (a / 4 :: (a mod 4) * 16 + b / 16 :: (b mod 16) * 4 + c / 64 :: c mod 64 :: body).
  change (length (a :: b :: c :: raw)) with (3 + length raw)%nat.
  rewrite b64_padding_step, b64_groups_step. split_and!.
  - repeat (constructor; [lia|]). done.
  - cbn [b64encode map app]. by rewrite Henc.
  - cbn [length]. lia.
Qed.

Lemma mapM_b64_symbols body k :
  Forall (λ n, n < 64) body →
  mapM (λ ch, if ch =? pad_char then Some PADDING_EMOJI else B64_TO_EMOJI !! [ch])
       (map b64_char body ++ replicate k pad_char)
  = Some (map (λ n, nth (N.to_nat n) BASE64_EMOJI_64 []) body ++ replicate k PADDING_EMOJI).
Proof.
  induction 1 as [|n body Hn _ IH].
  - cbn [map app]. induction k as [|k IHk]; [done|].
    cbn [replicate mapM]. rewrite N.eqb_refl. cbn [mbind option_bind].
    by rewrite IHk.
  - cbn [map app mapM]. rewrite b64_char_not_pad, B64_TO_EMOJI_char by done.
    cbn [mbind option_bind]. by rewrite IH.
Qed.

(** X8 — Shape of the base-64 payload.  When the text encodes to [n]
    bytes, the payload is a run of value symbols of the 64-symbol alphabet
    followed by [(3 - n mod 3) mod 3] padding symbols, [4 * ceil(n / 3)]
    symbols in all. *)
Theorem base64_encoding_shape (E : Encoding) (t : str) (raw : bytes) :
  str_encode E t = Some raw → is_bytes raw →
  ∃ values,
    encode_b64_emoji E t
    = Success (concat (values ++ replicate (b64_padding (length raw)) PADDING_EMOJI))
    ∧ Forall (λ sym, sym ∈ BASE64_EMOJI_64) values
    ∧ (length values + b64_padding (length raw) = 4 * ((length raw + 2) / 3))%nat.
Proof.
  intros Henc Hraw.
  destruct (b64encode_shape_upto (length raw) raw) as (body & Hbody & Hb64 & Hlen);
    [done..|].
  exists (map (λ n, nth (N.to_nat n) BASE64_EMOJI_64 []) body). split_and!.
  - unfold encode_b64_emoji.
    rewrite Henc, b64_chars_ascii by by apply b64encode_chars.
    by rewrite Hb64, mapM_b64_symbols.
  - clear Hb64 Hlen. induction Hbody as [|n body Hn _ IH]; constructor; [|done].
    revert n Hn. by_running 64%nat.
  - by rewrite length_map.
Qed.

Lemma base64_encoding_shape_witness :
  (str_encode utf8 [72; 105; 33; 63] = Some [72; 105; 33; 63] ∧ is_bytes [72; 105; 33; 63])
  ∧ ∃ values,
      encode_b64_emoji utf8 [72; 105; 33; 63]
      = Success (concat (values ++ replicate (b64_padding 4) PADDING_EMOJI))
      ∧ Forall (λ sym, sym ∈ BASE64_EMOJI_64) values
      ∧ (length values + b64_padding 4 = 4 * ((4 + 2) / 3))%nat.
Proof.
  assert (Henc : str_encode utf8 [72; 105; 33; 63] = Some [72; 105; 33; 63])
    by reflexivity.
  assert (Hraw : is_bytes [72; 105; 33; 63]) by (repeat constructor).
  split; [done|]. exact (base64_encoding_shape utf8 _ _ Henc Hraw).
Defined.

(** ** Detectors and decoders *)

Lemma all_space_filter s : List.filter not_space s = [] → all_space s.
Proof.
  induction s as [|c s IH]; [constructor|]. cbn [List.filter]. unfold not_space at 1.
  destruct (cp_isspace c) eqn:Hs; cbn [negb]; [|done].
  intros Hf. constructor; [done|by apply IH].
Qed.

Lemma looks_like_hex_emoji_clean s :
  looks_like_hex_emoji s = true ↔ hex_clean s ∧ ¬ all_space s.
Proof.
  unfold looks_like_hex_emoji, hex_clean.
  rewrite andb_true_iff, forallb_forall, existsb_exists, Forall_forall. split.
  - intros [Hall (c & Hin & Hc)]. split.
    + intros x Hx. apply orb_true_iff. rewrite <- isspace_single.
      apply Hall. by apply list_elem_of_In.
    + intros Hsp. unfold all_space in Hsp. rewrite Forall_forall in Hsp.
      apply list_elem_of_In, Hsp, space_not_in_rev_hex_map in Hin. congruence.
  - intros [Hcl Hns]. split.
    + intros x Hx. rewrite isspace_single. apply orb_true_iff, Hcl.
      by apply list_elem_of_In.
    + destruct (List.filter not_space s) as [|c f] eqn:Hf;
        [by apply all_space_filter in Hf|].
      assert (Hc : In c (List.filter not_space s)) by (rewrite Hf; by left).
      apply filter_In in Hc as [Hin Hc]. exists c. split; [done|].
      destruct (Hcl c) as [?|Hs]; [by apply list_elem_of_In|done|].
      unfold not_space in Hc. by rewrite Hs in Hc.
Qed.

(** X9 — The nibble detector accepts exactly the streams that hold
    something besides whitespace and on which the nibble decoder does not
    stop at an unknown unit. *)
Theorem nibble_detector_matches_decoder (E : Encoding) (s : str) :
  looks_like_hex_emoji s = true
  ↔ (¬ all_space s ∧ ∀ u, decode_hex_emoji E s ≠ Failure (UnknownHexEmoji u)).
Proof.
  rewrite looks_like_hex_emoji_clean. split.
  - intros [Hcl Hns]. split; [done|]. intros u.
    rewrite decode_hex_emoji_clean by done.
    destruct (Nat.odd _); [done|]. destruct (bytes_fromhex _); [|done].
    by destruct (bytes_decode E _).
  - intros [Hns Hdec]. split; [|done].
    destruct (hex_scan_cases s []) as [(pre & c & post & -> & _ & _ & _ & Hscan)|[Hcl _]];
      [|done].
    destruct (Hdec [c]). unfold decode_hex_emoji. by rewrite Hscan.
Qed.

Lemma in_emoji_set_symbol c : in_emoji_set c = true → [c] ∈ b64_symbols.
Proof.
  intros H. apply bool_decide_eq_true_1 in H. unfold emoji_set in H.
  by apply elem_of_list_to_set in H.
Qed.

(** X10 — A stream the base-64 detector accepts is never stopped at an
    unknown unit by the base-64 decoder: it decodes, or fails in the
    base-64 or byte decoding. *)
Theorem base64_detector_sound (E : Encoding) (s : str) :
  looks_like_b64_emoji s = true →
  (∃ text, decode_b64_emoji E s = Success text)
  ∨ decode_b64_emoji E s = Failure (Base64DecodeError BinasciiError)
  ∨ decode_b64_emoji E s = Failure (Base64DecodeError UnicodeDecodeError).
Proof.
  unfold looks_like_b64_emoji. rewrite andb_true_iff, forallb_forall.
  intros [Hall _].
  destruct (b64_scan_cases s [])
    as [(g & l & c & post & -> & _ & _ & Hc & Hs & _ & _)|(g & l & -> & _ & _ & Hscan)].
  - specialize (Hall c). rewrite isspace_single, Hs, orb_false_r in Hall.
    destruct Hc. apply in_emoji_set_symbol, Hall. apply in_or_app. right. by left.
  - unfold decode_b64_emoji. rewrite Hscan.
    destruct (b64decode _); [|by right; left].
    destruct (bytes_decode E _); [left; eauto|by right; right].
Qed.

Lemma base64_detector_sound_witness :
  looks_like_b64_emoji [128529; 32; 129320; 128516; 128998] = true
  ∧ ((∃ text, decode_b64_emoji utf8 [128529; 32; 129320; 128516; 128998] = Success text)
     ∨ decode_b64_emoji utf8 [128529; 32; 129320; 128516; 128998]
       = Failure (Base64DecodeError BinasciiError)
     ∨ decode_b64_emoji utf8 [128529; 32; 129320; 128516; 128998]
       = Failure (Base64DecodeError UnicodeDecodeError)).
Proof.
  assert (H : looks_like_b64_emoji [128529; 32; 129320; 128516; 128998] = true)
    by reflexivity.
  split; [exact H|]. exact (base64_detector_sound utf8 _ H).
Defined.

(** X11 — Neither detector accepts a blank stream: one of whitespace only,
    the empty one included. *)
Theorem detectors_reject_blank (s : str) :
  all_space s → looks_like_hex_emoji s = false ∧ looks_like_b64_emoji s = false.
Proof.
  intros Hs. split.
  - destruct (looks_like_hex_emoji s) eqn:E; [|done].
    apply looks_like_hex_emoji_clean in E as [_ []]. done.
  - destruct (looks_like_b64_emoji s) eqn:E; [|done].
    unfold looks_like_b64_emoji in E. apply andb_true_iff in E as [_ E].
    apply existsb_exists in E as (c & Hin & Hc).
    unfold all_space in Hs. rewrite Forall_forall in Hs.
    apply list_elem_of_In, Hs in Hin.
    apply in_emoji_set_symbol, b64_symbol_inv in Hc as (_ & Hns & _).
    rewrite isspace_single in Hns. congruence.
Qed.

Lemma detectors_reject_blank_witness :
  all_space [32; 10; 9]
  ∧ looks_like_hex_emoji [32; 10; 9] = false ∧ looks_like_b64_emoji [32; 10; 9] = false.
Proof.
  assert (H : all_space [32; 10; 9]) by (repeat constructor).
  split; [exact H|]. exact (detectors_reject_blank _ H).
Defined.

(** ** The command line on nibble payloads *)

Lemma encode_hex_emoji_inv E t payload :
  (∀ t raw, str_encode E t = Some raw → is_bytes raw) →
  encode_hex_emoji E t = Success payload →
  ∃ raw, str_encode E t = Some raw ∧ is_bytes raw
         ∧ payload = map hex_sym (nibbles_of_bytes raw).
Proof.
  intros HE Henc. destruct (str_encode E t) as [raw|] eqn:Hraw.
  - pose proof (HE _ _ Hraw) as Hb. exists raw. split_and!; [done..|].
    rewrite (encode_hex_emoji_shape E t raw) in Henc by done.
    injection Henc as <-. by apply spec_nibble_symbols_nibbles.
  - unfold encode_hex_emoji in Henc. by rewrite Hraw in Henc.
Qed.

Lemma nibbles_of_bytes_below raw :
  is_bytes raw → Forall (λ n, n < 16) (nibbles_of_bytes raw).
Proof.
  induction 1 as [|b raw Hb _ IH]; [constructor|].
  unfold nibbles_of_bytes in *. cbn [flat_map app].
  constructor; [lia|]. constructor; [lia|done].
Qed.

Lemma nibbles_of_bytes_length raw :
  length (nibbles_of_bytes raw) = (2 * length raw)%nat.
Proof. induction raw as [|b raw IH]; [done|]. unfold nibbles_of_bytes in *. simpl. lia. Qed.

Lemma symbols_not_blank nibs :
  Forall (λ n, n < 16) nibs → nibs ≠ [] → ¬ all_space (map hex_sym nibs).
Proof.
  intros Hn Hne Hsp. destruct Hn as [|n nibs Hlt _]; [done|].
  inversion Hsp as [|?? Hc _]; subst. by rewrite hex_sym_not_space in Hc.
Qed.

Lemma looks_like_hex_emoji_symbols nibs :
  Forall (λ n, n < 16) nibs → nibs ≠ [] → looks_like_hex_emoji (map hex_sym nibs) = true.
Proof.
  intros Hn Hne. apply looks_like_hex_emoji_clean.
  split; [by apply hex_clean_symbols|by apply symbols_not_blank].
Qed.

Lemma utf8_encode_nil t : Utf8.encode t = Some [] → t = [].
Proof.
  destruct t as [|c t]; [done|]. cbn [Utf8.encode].
  destruct (Utf8.encode_cp c) as [b|] eqn:Hc; [|done].
  destruct (Utf8.encode t) as [r|]; [|done]. cbn [mbind option_bind].
  intros [= Hnil]. apply app_eq_nil in Hnil as [-> _].
  revert Hc. unfold Utf8.encode_cp. by repeat case_match.
Qed.

(** X12 — With [--decode --mode b64] the command line gives a nibble
    payload its text back: for every text [encode_hex_emoji] accepts,
    [run_cli] on the payload writes the text and exits with status 0. *)
Theorem cli_b64_mode_decodes_nibble_payload (t payload : str) :
  encode_hex_emoji utf8 t = Success payload →
  run_cli (mkArgs false true b64) payload = (0, Some t, None).
Proof.
  intros Henc.
  assert (Hdec : decode_hex_emoji utf8 payload = Success t).
  { destruct (encode_hex_emoji_inv utf8 t payload) as (raw & Hraw & Hb & ->);
      [apply (encode_is_bytes (E:=utf8))|done|].
    rewrite <- spec_nibble_symbols_nibbles by done.
    exact (decode_encode_hex_emoji utf8 t raw Hraw). }
  unfold run_cli, cli_res. cbn [arg_encode arg_decode arg_mode orb negb].
  destruct (looks_like_hex_emoji payload) eqn:Hl.
  - by rewrite Hdec.
  - assert (Hblank : all_space payload).
    { destruct (encode_hex_emoji_inv utf8 t payload) as (raw & _ & Hraw & ->);
        [apply (encode_is_bytes (E:=utf8))|done|].
      destruct (nibbles_of_bytes raw) as [|n nibs] eqn:Hn; [constructor|].
      rewrite looks_like_hex_emoji_symbols in Hl; [done| |done].
      rewrite <- Hn. by apply nibbles_of_bytes_below. }
    destruct (decode_blank utf8 payload Hblank eq_refl) as [H1 H2].
    rewrite H1 in Hdec. injection Hdec as <-. by rewrite H2.
Qed.

Lemma cli_b64_mode_decodes_nibble_payload_witness :
  encode_hex_emoji utf8 [72; 105] = Success [128516; 128522; 128518; 128578]
  ∧ run_cli (mkArgs false true b64) [128516; 128522; 128518; 128578]
    = (0, Some [72; 105], None).
Proof.
  assert (H : encode_hex_emoji utf8 [72; 105] = Success [128516; 128522; 128518; 128578])
    by reflexivity.
  split; [exact H|]. exact (cli_b64_mode_decodes_nibble_payload _ _ H).
Defined.

Lemma hex_sym_b64_symbol n : n < 16 → [hex_sym n] ∈ b64_symbols.
Proof. revert n. by_running 16%nat. Qed.

Lemma hex_sym_b64_char n : n < 16 → b64_token_char [hex_sym n] = [b64_char n].
Proof. revert n. by_running 16%nat. Qed.

Lemma b64_char_nibble_not_pad n : n < 16 → b64_char n ≠ pad_char.
Proof. revert n. by_running 16%nat. Qed.

Lemma b64_scan_hex_symbols nibs chars :
  Forall (λ n, n < 16) nibs →
  b64_scan (map hex_sym nibs) chars = inr (chars ++ map (λ n, [b64_char n]) nibs).
Proof.
  intros Hn. revert chars. induction Hn as [|n nibs Hlt _ IH]; intros chars.
  - simpl. by rewrite app_nil_r.
  - cbn [map]. change (hex_sym n :: map hex_sym nibs) with ([hex_sym n] ++ map hex_sym nibs).
    rewrite b64_scan_symbol by by apply hex_sym_b64_symbol.
    rewrite IH, hex_sym_b64_char, <- app_assoc by done. done.
Qed.

Lemma concat_b64_chars (nibs : list N) :
  concat (map (λ n, [b64_char n]) nibs) = map b64_char nibs.
Proof. induction nibs as [|n nibs IH]; [done|]. simpl. by rewrite IH. Qed.

Lemma b64decode_length_upto k s raw :
  (length s ≤ k)%nat → Forall (λ c, c ≠ pad_char) s →
  b64decode s = Some raw → (3 * length s = 4 * length raw)%nat.
Proof.
  revert s raw. induction k as [|k IH]; intros s raw Hlen Hs.
  { destruct s; [|simpl in Hlen; lia]. by intros [= <-]. }
  destruct Hs as [|c0 s H0 Hs]; [by intros [= <-]|].
  destruct Hs as [|c1 s H1 Hs]; [done|].
  destruct Hs as [|c2 s H2 Hs]; [done|].
  destruct Hs as [|c3 s H3 Hs]; [done|].
  cbn [b64decode].
  destruct (b64_val c0); [|done]. destruct (b64_val c1); [|done].
  cbn [mbind option_bind].
  rewrite (proj2 (N.eqb_neq c2 pad_char)) by done.
  destruct (b64_val c2); [|done]. cbn [mbind option_bind].
  rewrite (proj2 (N.eqb_neq c3 pad_char)) by done.
  destruct (b64_val c3); [|done]. cbn [mbind option_bind].
  destruct (b64decode s) as [rest|] eqn:Hrest; [|done]. cbn [mbind option_bind].
  intros [= <-]. cbn [length] in *.
  specialize (IH s rest ltac:(lia) Hs Hrest). lia.
Qed.

(** X13 — With [--decode] and the default [--mode hex] the command line
    never gives a nibble payload its text back, the empty text apart: the
    payload goes to the base-64 decoder, whose result, if any, is half as
    long again as the encoded bytes. *)
Theorem cli_hex_mode_loses_nibble_payload (t payload : str) :
  t ≠ [] → encode_hex_emoji utf8 t = Success payload →
  cli_res (mkArgs false true hex) payload = Some (decode_b64_emoji utf8 payload)
  ∧ run_cli (mkArgs false true hex) payload ≠ (0, Some t, None).
Proof.
  intros Hne Henc.
  destruct (encode_hex_emoji_inv utf8 t payload) as (raw & Hraw & Hb & ->);
    [apply (encode_is_bytes (E:=utf8))|done|].
  pose proof (nibbles_of_bytes_below raw Hb) as Hn.
  assert (Hraw_ne : raw ≠ []).
  { intros ->. by apply Hne, utf8_encode_nil. }
  assert (Hlook : looks_like_hex_emoji (map hex_sym (nibbles_of_bytes raw)) = true).
  { apply looks_like_hex_emoji_symbols; [done|].
    intros Hnil. apply (f_equal length) in Hnil.
    rewrite nibbles_of_bytes_length in Hnil. destruct raw; [done|simpl in Hnil; lia]. }
  pose proof (cli_decode_hex_stream _ Hlook) as Hcli. split; [done|].
  unfold run_cli. rewrite Hcli. unfold decode_b64_emoji.
  rewrite b64_scan_hex_symbols by done. cbn [app].
  rewrite concat_b64_chars.
  destruct (b64decode (map b64_char (nibbles_of_bytes raw))) as [raw'|] eqn:Hdec; [|done].
  apply (b64decode_length_upto (length (map b64_char (nibbles_of_bytes raw)))) in Hdec;
    [|done|].
  - rewrite length_map, nibbles_of_bytes_length in Hdec.
    destruct (bytes_decode utf8 raw') as [t'|] eqn:Ht'; [|done].
    cbn [ok data negb Success]. intros [= ->].
    apply (utf8_encode_decode_upto (length raw')) in Ht'; [|done].
    change (str_encode utf8 t) with (Utf8.encode t) in Hraw.
    rewrite Hraw in Ht'. injection Ht' as ->. destruct raw'; [done|simpl in Hdec; lia].
  - clear -Hn. induction Hn as [|n nibs Hlt _ IH]; constructor; [|done].
    by apply b64_char_nibble_not_pad.
Qed.

Lemma cli_hex_mode_loses_nibble_payload_witness :
  ([72; 105] ≠ []
   ∧ encode_hex_emoji utf8 [72; 105] = Success [128516; 128522; 128518; 128578])
  ∧ cli_res (mkArgs false true hex) [128516; 128522; 128518; 128578]
    = Some (decode_b64_emoji utf8 [128516; 128522; 128518; 128578])
  ∧ run_cli (mkArgs false true hex) [128516; 128522; 128518; 128578]
    ≠ (0, Some [72; 105], None).
Proof.
  assert (Hne : [72; 105] ≠ ([] : list N)) by done.
  assert (H : encode_hex_emoji utf8 [72; 105] = Success [128516; 128522; 128518; 128578])
    by reflexivity.
  split; [done|]. exact (cli_hex_mode_loses_nibble_payload _ _ Hne H).
Defined.

(** ** The window *)

Lemma filter_not_nil s : List.filter not_space s ≠ [] → s ≠ [].
Proof. by intros H ->. Qed.

(** [run] in the decode direction, nibble mode, on a pane that holds more
    than whitespace. *)
Lemma run_decode_hex app :
  mode app = hex → direction app = decode →
  List.filter not_space (input app) ≠ [] →
  run app = mkApp (input app) (shown (decode_hex_emoji utf8 (input app))).1 hex decode
                  (shown (decode_hex_emoji utf8 (input app))).2.
Proof.
  intros Hm Hd Hne. unfold run.
  assert (Hf : List.filter not_space (rstrip_nl (input_get app))
               = List.filter not_space (input app)).
  { rewrite filter_rstrip_nl. unfold input_get.
    rewrite List.filter_app. simpl. by rewrite app_nil_r. }
  assert (Hdec : decode_hex_emoji utf8 (rstrip_nl (input_get app))
                 = decode_hex_emoji utf8 (input app)).
  { rewrite <- (decode_hex_emoji_drops_space utf8 (rstrip_nl _)), Hf.
    apply decode_hex_emoji_drops_space. }
  rewrite <- Hf in Hne. apply filter_not_nil in Hne. clear Hf.
  destruct (rstrip_nl (input_get app)) as [|c text]; [done|].
  unfold run_res. rewrite Hm, Hd, Hdec. unfold shown.
  destruct (ok (decode_hex_emoji utf8 (input app)));
    unfold set_status, output_delete_and_insert; cbn [input output mode direction status fst snd];
    by rewrite ?Hm, ?Hd.
Qed.

Lemma rstrip_nl_input_get s : rstrip_nl (s ++ [10]) = rstrip_nl s.
Proof. unfold rstrip_nl, rstrip. by rewrite rev_app_distr. Qed.

Lemma drop_while_head p c s : p c = false → drop_while p (c :: s) = c :: s.
Proof. intros H. simpl. by rewrite H. Qed.

(** A text that does not end in a newline is left alone by [rstrip("\n")]. *)
Lemma rstrip_nl_id s : last s ≠ Some 10 → rstrip_nl s = s.
Proof.
  intros Hl. unfold rstrip_nl, rstrip.
  destruct (rev s) as [|c r] eqn:Hr; [simpl; by rewrite <- (rev_involutive s), Hr|].
  rewrite drop_while_head; [by rewrite <- Hr, rev_involutive|].
  apply N.eqb_neq. intros <-. apply Hl.
  rewrite <- (rev_involutive s), Hr. simpl. by rewrite last_snoc.
Qed.

Lemma last_symbols nibs :
  Forall (λ n, n < 16) nibs → last (map hex_sym nibs) ≠ Some 10.
Proof.
  intros Hn Hl. apply last_Some in Hl as (pre & Hl).
  assert (Hin : In 10 (map hex_sym nibs)) by (rewrite Hl; apply in_or_app; right; by left).
  apply in_map_iff in Hin as (n & Hn10 & Hin).
  rewrite Forall_forall in Hn. apply list_elem_of_In, Hn in Hin.
  pose proof (hex_sym_not_space n Hin) as Hs. by rewrite Hn10 in Hs.
Qed.

(** [run] in the encode direction, nibble mode. *)
Lemma run_encode_hex app t :
  mode app = hex → direction app = encode →
  rstrip_nl (input app) = t → t ≠ [] →
  run app = mkApp (input app) (shown (encode_hex_emoji utf8 t)).1 hex encode
                  (shown (encode_hex_emoji utf8 t)).2.
Proof.
  intros Hm Hd Ht Hne. unfold run, input_get. rewrite rstrip_nl_input_get, Ht.
  destruct t as [|c t]; [done|]. unfold run_res. rewrite Hm, Hd. unfold shown.
  destruct (ok (encode_hex_emoji utf8 (c :: t)));
    unfold set_status, output_delete_and_insert; cbn [input output mode direction status fst snd];
    by rewrite ?Hm, ?Hd.
Qed.

Lemma encode_hex_emoji_symbols t :
  forallb utf8_scalar t = true → t ≠ [] →
  ∃ nibs, Forall (λ n, n < 16) nibs ∧ nibs ≠ []
          ∧ encode_hex_emoji utf8 t = Success (map hex_sym nibs)
          ∧ decode_hex_emoji utf8 (map hex_sym nibs) = Success t.
Proof.
  intros Hsc Hne. destruct (Utf8.encode t) as [raw|] eqn:Henc;
    [|apply utf8_encode_scalar in Henc; congruence].
  change (Utf8.encode t) with (str_encode utf8 t) in Henc.
  pose proof (encode_is_bytes (E:=utf8) _ _ Henc) as Hb.
  exists (nibbles_of_bytes raw). split_and!.
  - by apply nibbles_of_bytes_below.
  - intros Hnil. apply (f_equal length) in Hnil.
    rewrite nibbles_of_bytes_length in Hnil.
    destruct raw; [|simpl in Hnil; lia]. by apply Hne, utf8_encode_nil.
  - rewrite (encode_hex_emoji_shape utf8 t raw) by done.
    by rewrite spec_nibble_symbols_nibbles.
  - rewrite <- spec_nibble_symbols_nibbles by done.
    exact (decode_encode_hex_emoji utf8 t raw Henc).
Qed.

Lemma filter_symbols_newline nibs :
  Forall (λ n, n < 16) nibs → nibs ≠ [] →
  List.filter not_space (map hex_sym nibs ++ [10]) ≠ [].
Proof.
  intros Hn Hne. destruct Hn as [|n nibs Hlt _]; [done|].
  cbn [map app List.filter]. unfold not_space at 1. by rewrite hex_sym_not_space.
Qed.

Lemma decode_hex_emoji_newline E s :
  decode_hex_emoji E (s ++ [10]) = decode_hex_emoji E s.
Proof.
  rewrite <- (decode_hex_emoji_drops_space E (s ++ [10])), List.filter_app.
  simpl. rewrite app_nil_r. apply decode_hex_emoji_drops_space.
Qed.

(** X14 — Round trip through the window by Swap.  In nibble mode, encoding
    the input pane, swapping the panes, selecting Decode and running again
    shows the original text (without the newlines it ended in) and the
    status "Success.", for every non-empty text UTF-8 can encode. *)
Theorem window_round_trip_by_swap (w : Window) (t : str) :
  mode (w_app w) = hex → direction (w_app w) = encode →
  rstrip_nl (input (w_app w)) = t → t ≠ [] → forallb utf8_scalar t = true →
  let w' := w_run (select_direction decode (swap (w_run w))) in
  output (w_app w') = t ∧ w_status w' = RunStatus StatusSuccess.
Proof.
  intros Hm Hd Ht Hne Hsc.
  destruct (encode_hex_emoji_symbols t Hsc Hne) as (nibs & Hn & Hnn & Henc & Hdec).
  unfold w_run at 2. rewrite (run_encode_hex (w_app w) t) by done.
  rewrite Henc. unfold shown, swap, select_direction, w_run, set_mode, input_get, output_get,
    input_replace, output_delete_and_insert.
  cbn [ok data error Success w_app w_status w_clipboard input output mode direction
       status fst snd].
  rewrite run_decode_hex; cbn [input output mode direction]; [|done|done|].
  - rewrite decode_hex_emoji_newline, Hdec. by unfold shown.
  - by apply filter_symbols_newline.
Qed.

Lemma window_round_trip_by_swap_witness :
  let w := mkWindow (mkApp [72; 105; 10] [] hex encode Ready) (RunStatus Ready) None in
  (mode (w_app w) = hex ∧ direction (w_app w) = encode
   ∧ rstrip_nl (input (w_app w)) = [72; 105] ∧ [72; 105] ≠ []
   ∧ forallb utf8_scalar [72; 105] = true)
  ∧ output (w_app (w_run (select_direction decode (swap (w_run w))))) = [72; 105]
  ∧ w_status (w_run (select_direction decode (swap (w_run w)))) = RunStatus StatusSuccess.
Proof.
  intros w.
  assert (H3 : rstrip_nl (input (w_app w)) = [72; 105]) by reflexivity.
  assert (H4 : [72; 105] ≠ ([] : list N)) by done.
  assert (H5 : forallb utf8_scalar [72; 105] = true) by reflexivity.
  split; [done|].
  exact (window_round_trip_by_swap w [72; 105] eq_refl eq_refl H3 H4 H5).
Defined.

(** X15 — Round trip through the window by the clipboard.  In nibble mode,
    encoding the input pane, copying the output, pasting it into the input,
    selecting Decode and running again shows the original text and the
    status "Success."; the clipboard holds the payload. *)
Theorem window_round_trip_by_clipboard (w : Window) (t : str) :
  mode (w_app w) = hex → direction (w_app w) = encode →
  rstrip_nl (input (w_app w)) = t → t ≠ [] → forallb utf8_scalar t = true →
  let w' := w_run (select_direction decode (paste_input (copy_output (w_run w)))) in
  output (w_app w') = t ∧ w_status w' = RunStatus StatusSuccess
  ∧ ∃ payload, encode_hex_emoji utf8 t = Success payload
               ∧ w_clipboard w' = Some payload.
Proof.
  intros Hm Hd Ht Hne Hsc.
  destruct (encode_hex_emoji_symbols t Hsc Hne) as (nibs & Hn & Hnn & Henc & Hdec).
  unfold w_run at 2. rewrite (run_encode_hex (w_app w) t) by done.
  rewrite Henc. unfold shown, copy_output, output_get.
  cbn [ok data error Success w_app w_status w_clipboard input output mode direction
       status fst snd].
  rewrite rstrip_nl_input_get, rstrip_nl_id by by apply last_symbols.
  destruct (map hex_sym nibs) as [|c payload] eqn:Hp.
  { destruct Hn; [done|discriminate Hp]. }
  rewrite <- Hp in *. clear Hp c payload.
  unfold paste_input, select_direction, w_run, set_mode, input_replace.
  cbn [w_app w_status w_clipboard input output mode direction status].
  rewrite run_decode_hex; cbn [input output mode direction]; [|done|done|].
  - rewrite Hdec. unfold shown. cbn [ok data Success fst snd]. eauto.
  - intros Hnil. apply (filter_symbols_newline nibs Hn Hnn).
    by rewrite List.filter_app, Hnil.
Qed.

Lemma window_round_trip_by_clipboard_witness :
  let w := mkWindow (mkApp [72; 105; 10] [] hex encode Ready) (RunStatus Ready) None in
  let w' := w_run (select_direction decode (paste_input (copy_output (w_run w)))) in
  (mode (w_app w) = hex ∧ direction (w_app w) = encode
   ∧ rstrip_nl (input (w_app w)) = [72; 105] ∧ [72; 105] ≠ []
   ∧ forallb utf8_scalar [72; 105] = true)
  ∧ output (w_app w') = [72; 105] ∧ w_status w' = RunStatus StatusSuccess
  ∧ ∃ payload, encode_hex_emoji utf8 [72; 105] = Success payload
               ∧ w_clipboard w' = Some payload.
Proof.
  intros w w'.
  assert (H3 : rstrip_nl (input (w_app w)) = [72; 105]) by reflexivity.
  assert (H4 : [72; 105] ≠ ([] : list N)) by done.
  assert (H5 : forallb utf8_scalar [72; 105] = true) by reflexivity.
  split; [done|].
  exact (window_round_trip_by_clipboard w [72; 105] eq_refl eq_refl H3 H4 H5).
Defined.

(** ** Auto-Detect on base-64 streams *)

Lemma in_filter_not_space c s :
  cp_isspace c = false → c ∈ s → c ∈ List.filter not_space s.
Proof.
  intros Hc Hin. apply list_elem_of_In, filter_In. split; [by apply list_elem_of_In|].
  unfold not_space. by rewrite Hc.
Qed.

Lemma filter_not_space_elem c s : c ∈ List.filter not_space s → c ∈ s.
Proof. intros Hin. apply list_elem_of_In, filter_In in Hin as [Hin _]. by apply list_elem_of_In. Qed.

Lemma looks_like_b64_emoji_inv s :
  looks_like_b64_emoji s = true → (9785 ∉ s) ∧ List.filter not_space s ≠ [].
Proof.
  unfold looks_like_b64_emoji. rewrite andb_true_iff, forallb_forall, existsb_exists.
  intros [Hall (c & Hin & Hc)]. split.
  - intros H9. apply list_elem_of_In, Hall in H9. vm_compute in H9. discriminate H9.
  - intros Hnil. apply in_emoji_set_symbol, b64_symbol_inv in Hc as (_ & Hns & _).
    rewrite isspace_single in Hns.
    apply list_elem_of_In, (in_filter_not_space c s Hns) in Hin.
    rewrite Hnil in Hin. by apply elem_of_nil in Hin.
Qed.

Lemma decode_b64_emoji_drops_space E s :
  9785 ∉ s → decode_b64_emoji E (List.filter not_space s) = decode_b64_emoji E s.
Proof. intros Hs. unfold decode_b64_emoji. by rewrite b64_scan_drops_space. Qed.

Lemma decode_b64_emoji_stripped E s :
  9785 ∉ strip s → decode_b64_emoji E (rstrip_nl s) = decode_b64_emoji E (strip s).
Proof.
  intros Hs.
  assert (Hs' : 9785 ∉ rstrip_nl s).
  { intros Hin. apply Hs. apply (in_filter_not_space 9785) in Hin; [|done].
    rewrite filter_rstrip_nl, <- filter_strip in Hin.
    by apply filter_not_space_elem in Hin. }
  rewrite <- (decode_b64_emoji_drops_space E (rstrip_nl s)) by done.
  rewrite <- (decode_b64_emoji_drops_space E (strip s)) by done.
  by rewrite filter_rstrip_nl, filter_strip.
Qed.

(** X16 — Auto-Detect on a stream that only the base-64 detector accepts:
    the window is switched to base-64 mode and Decode, and shows the result
    of the base-64 decoder on the stripped input: its text and "Success.",
    or an empty output pane and the error. *)
Theorem auto_detect_decodes_base64 (app : App) :
  looks_like_hex_emoji (strip (input_get app)) = false →
  looks_like_b64_emoji (strip (input_get app)) = true →
  let app' := auto_detect_decode app in
  input app' = input app ∧ mode app' = b64 ∧ direction app' = decode
  ∧ (output app', status app')
    = shown (decode_b64_emoji utf8 (strip (input_get app))).
Proof.
  intros Hhex Hb64. unfold auto_detect_decode.
  destruct (looks_like_b64_emoji_inv _ Hb64) as [H9 Hne].
  destruct (strip (input_get app)) as [|c text] eqn:Hstrip; [done|].
  rewrite Hhex, Hb64. unfold run.
  change (input_get (set_mode b64 decode app)) with (input_get app).
  rewrite <- Hstrip in *. rewrite filter_strip, <- filter_rstrip_nl in Hne.
  pose proof (decode_b64_emoji_stripped utf8 (input_get app) H9) as Hdec.
  destruct (rstrip_nl (input_get app)) as [|c' text'] eqn:Hrs; [done|].
  change (run_res (set_mode b64 decode app) (c' :: text'))
    with (decode_b64_emoji utf8 (c' :: text')).
  rewrite Hdec. unfold shown.
  by destruct (ok (decode_b64_emoji utf8 (strip (input_get app)))).
Qed.

Lemma auto_detect_decodes_base64_witness :
  let app := mkApp [32; 128529; 129320; 128517; 128547; 10] [65] hex encode Ready in
  (looks_like_hex_emoji (strip (input_get app)) = false
   ∧ looks_like_b64_emoji (strip (input_get app)) = true)
  ∧ input (auto_detect_decode app) = input app
  ∧ mode (auto_detect_decode app) = b64 ∧ direction (auto_detect_decode app) = decode
  ∧ (output (auto_detect_decode app), status (auto_detect_decode app))
    = shown (decode_b64_emoji utf8 (strip (input_get app))).
Proof.
  intros app.
  assert (H1 : looks_like_hex_emoji (strip (input_get app)) = false) by reflexivity.
  assert (H2 : looks_like_b64_emoji (strip (input_get app)) = true) by reflexivity.
  split; [exact (conj H1 H2)|]. exact (auto_detect_decodes_base64 app H1 H2).
Defined.

(** ** Outcomes of the base-64 decoder *)

(** X17 — The failures of the base-64 decoder.  Whatever the input, the
    result is a [Success], or the "Unknown emoji" failure for one code point
    of the input that is neither whitespace nor a one-code-point symbol, or
    a "Base64 decode error" for the base-64 or the byte decoding. *)
Theorem base64_decoder_outcomes (E : Encoding) (s : str) :
  (∃ text, decode_b64_emoji E s = Success text)
  ∨ (∃ c, c ∈ s ∧ ([c] ∉ b64_symbols) ∧ cp_isspace c = false
          ∧ decode_b64_emoji E s = Failure (UnknownB64Emoji [c]))
  ∨ decode_b64_emoji E s = Failure (Base64DecodeError BinasciiError)
  ∨ decode_b64_emoji E s = Failure (Base64DecodeError UnicodeDecodeError).
Proof.
  destruct (b64_scan_cases s [])
    as [(g & l & c & post & -> & _ & _ & Hc & Hs & _ & Hscan)|(g & l & -> & _ & _ & Hscan)].
  - right. left. exists c. split_and!; try done.
    + apply elem_of_app. right. left.
    + unfold decode_b64_emoji. by rewrite Hscan.
  - unfold decode_b64_emoji. rewrite Hscan.
    destruct (b64decode _); [|by right; right; left].
    destruct (bytes_decode E _); [left; eauto|by right; right; right].
Qed.

(** ** The detectors on payloads *)

Lemma value_symbol_code_points n :
  n < 64 →
  nth (N.to_nat n) BASE64_EMOJI_64 [] = frown
  ∨ forallb in_emoji_set (nth (N.to_nat n) BASE64_EMOJI_64 []) = true.
Proof. revert n. by_running 64%nat. Qed.

Lemma looks_like_b64_emoji_all s :
  s ≠ [] → forallb in_emoji_set s = true → looks_like_b64_emoji s = true.
Proof.
  intros Hne Hall. unfold looks_like_b64_emoji. apply andb_true_iff. split.
  - rewrite forallb_forall in *. intros c Hc. by rewrite Hall.
  - destruct s as [|c s]; [done|]. cbn [forallb existsb] in *.
    apply andb_true_iff in Hall as [-> _]. done.
Qed.

Lemma forallb_concat_symbols (syms : list str) :
  Forall (λ sym, forallb in_emoji_set sym = true) syms →
  forallb in_emoji_set (concat syms) = true.
Proof.
  induction 1 as [|sym syms Hs _ IH]; [done|]. cbn [concat].
  rewrite forallb_app, Hs, IH. done.
Qed.

Lemma concat_symbols_not_nil (syms : list str) :
  syms ≠ [] → Forall (λ sym, sym ≠ []) syms → concat syms ≠ [].
Proof.
  intros Hne Hall. destruct Hall as [|sym syms Hs _]; [done|].
  cbn [concat]. intros Hnil. by apply app_eq_nil in Hnil as [? _].
Qed.

(** X18 — The base-64 detector accepts the payload of [encode_b64_emoji],
    for a text of at least one byte, exactly when the code point U+2639 does
    not occur in it: a payload is rejected only for holding the
    two-code-point symbol. *)
Theorem base64_detector_on_payload (E : Encoding) (t : str) (raw : bytes) (payload : str) :
  str_encode E t = Some raw → is_bytes raw → raw ≠ [] →
  encode_b64_emoji E t = Success payload →
  looks_like_b64_emoji payload = true ↔ 9785 ∉ payload.
Proof.
  intros Henc Hraw Hne Hpay.
  destruct (b64encode_shape_upto (length raw) raw) as (body & Hbody & Hb64 & Hlen);
    [done..|].
  assert (Hp : payload = concat (map (λ n, nth (N.to_nat n) BASE64_EMOJI_64 []) body
                                 ++ replicate (b64_padding (length raw)) PADDING_EMOJI)).
  { unfold encode_b64_emoji in Hpay.
    rewrite Henc, b64_chars_ascii in Hpay by by apply b64encode_chars.
    rewrite Hb64, mapM_b64_symbols in Hpay by done. by injection Hpay. }
  split; [intros Hl; by apply looks_like_b64_emoji_inv in Hl as [? _]|].
  intros H9. apply looks_like_b64_emoji_all.
  - rewrite Hp. apply concat_symbols_not_nil.
    + intros Hnil. apply (f_equal length) in Hnil.
      rewrite length_app, length_map, length_replicate in Hnil. cbn [length] in Hnil.
      destruct body; [|simpl in Hnil; lia]. simpl in Hnil. rewrite Hnil in Hb64.
      by destruct raw as [|? [|? [|? ?]]].
    + apply Forall_app. split.
      * clear -Hbody. induction Hbody as [|n body Hn _ IH]; constructor; [|done].
        pose proof (BASE64_EMOJI_64_symbol n Hn) as Hs.
        apply b64_symbol_inv in Hs as ([Hs|(c & Hs & _)] & _); by rewrite Hs.
      * apply Forall_replicate. done.
  - rewrite Hp in *. apply forallb_concat_symbols, Forall_app. split.
    + clear Hb64 Hlen Hp Hpay. revert H9.
      induction Hbody as [|n body Hn _ IH]; intros H9; constructor.
      * destruct (value_symbol_code_points n Hn) as [Hf|?]; [|done].
        exfalso. apply H9. cbn [map app concat]. rewrite Hf. apply elem_of_app. left. left.
      * apply IH. intros Hin. apply H9. cbn [map app concat].
        apply elem_of_app. by right.
    + apply Forall_replicate. reflexivity.
Qed.

Lemma base64_detector_on_payload_witness :
  (str_encode utf8 [97; 97; 49] = Some [97; 97; 49] ∧ is_bytes [97; 97; 49]
   ∧ [97; 97; 49] ≠ []
   ∧ encode_b64_emoji utf8 [97; 97; 49] = Success [128529; 129320; 128516; 9785; 65039])
  ∧ (looks_like_b64_emoji [128529; 129320; 128516; 9785; 65039] = true
     ↔ 9785 ∉ [128529; 129320; 128516; 9785; 65039]).
Proof.
  assert (H1 : str_encode utf8 [97; 97; 49] = Some [97; 97; 49]) by reflexivity.
  assert (H2 : is_bytes [97; 97; 49]) by (repeat constructor).
  assert (H3 : [97; 97; 49] ≠ ([] : list N)) by done.
  assert (H4 : encode_b64_emoji utf8 [97; 97; 49]
               = Success [128529; 129320; 128516; 9785; 65039]) by reflexivity.
  split; [exact (conj H1 (conj H2 (conj H3 H4)))|]. exact (base64_detector_on_payload utf8 _ _ _ H1 H2 H3 H4).
Defined.

Lemma run_input app : input (run app) = input app.
Proof.
  unfold run. destruct (rstrip_nl (input_get app)); [done|].
  by destruct (ok (run_res app _)).
Qed.

Lemma auto_detect_decode_input app : input (auto_detect_decode app) = input app.
Proof.
  unfold auto_detect_decode. destruct (strip (input_get app)); [done|].
  destruct (looks_like_hex_emoji _); [by rewrite run_input|].
  destruct (looks_like_b64_emoji _); [by rewrite run_input|done].
Qed.

(** X19 — Auto-Detect gives a nibble payload its text back: with the
    payload of a non-empty text UTF-8 can encode in the input pane, whatever
    whitespace surrounds it, the window ends in nibble mode and Decode,
    showing the text and the status "Success.". *)
Theorem auto_detect_decodes_nibble_payload (app : App) (t payload : str) :
  t ≠ [] → encode_hex_emoji utf8 t = Success payload →
  strip (input_get app) = payload →
  auto_detect_decode app = mkApp (input app) t hex decode StatusSuccess.
Proof.
  intros Hne Henc Hin.
  assert (Hsc : forallb utf8_scalar t = true).
  { destruct (forallb utf8_scalar t) eqn:Hsc; [done|].
    apply utf8_encode_scalar in Hsc. unfold encode_hex_emoji in Henc.
    change (str_encode utf8 t) with (Utf8.encode t) in Henc. by rewrite Hsc in Henc. }
  destruct (encode_hex_emoji_symbols t Hsc Hne) as (nibs & Hn & Hnn & Henc' & Hdec).
  rewrite Henc in Henc'. injection Henc' as ->.
  pose proof (auto_detect_decode_hex app) as Hauto. rewrite Hin in Hauto.
  specialize (Hauto (looks_like_hex_emoji_symbols nibs Hn Hnn)).
  cbv zeta in Hauto. destruct Hauto as (Hm & Hd & Hout).
  rewrite Hdec in Hout. unfold shown in Hout. cbn [ok data Success] in Hout.
  injection Hout as Ho Hs.
  pose proof (auto_detect_decode_input app) as Hi.
  destruct (auto_detect_decode app) as [i o m d s]. cbn in *. by subst.
Qed.

Lemma auto_detect_decodes_nibble_payload_witness :
  let app := mkApp [32; 128516; 128522; 128518; 128578; 10] [65] b64 encode Ready in
  ([72; 105] ≠ []
   ∧ encode_hex_emoji utf8 [72; 105] = Success [128516; 128522; 128518; 128578]
   ∧ strip (input_get app) = [128516; 128522; 128518; 128578])
  ∧ auto_detect_decode app = mkApp (input app) [72; 105] hex decode StatusSuccess.
Proof.
  intros app.
  assert (H1 : [72; 105] ≠ ([] : list N)) by done.
  assert (H2 : encode_hex_emoji utf8 [72; 105] = Success [128516; 128522; 128518; 128578])
    by reflexivity.
  assert (H3 : strip (input_get app) = [128516; 128522; 128518; 128578]) by reflexivity.
  split; [done|]. exact (auto_detect_decodes_nibble_payload app _ _ H1 H2 H3).
Defined.

(** ** Base-64 round trip *)

(** X20 — The base-64 round trip holds away from the repeated glyphs: when
    the base-64 text of the encoded bytes has none of the characters "U",
    "j" and "k", [encode_b64_emoji] succeeds and [decode_b64_emoji] maps its
    payload back to the text (for a lossless byte encoding such as UTF-8). *)
Theorem base64_round_trip_off_repeats (E : Encoding) `{!Lossless E} (t : str) (raw : bytes) :
  str_encode E t = Some raw →
  Forall (λ ch, ch ∉ repeated_b64_chars) (b64encode raw) →
  ∃ payload, encode_b64_emoji E t = Success payload
             ∧ decode_b64_emoji E payload = Success t.
Proof. exact (base64_round_trip_without_repeats E t raw). Qed.

Lemma base64_round_trip_off_repeats_witness :
  (str_encode utf8 [97; 97; 49; 33] = Some [97; 97; 49; 33]
   ∧ Forall (λ ch, ch ∉ repeated_b64_chars) (b64encode [97; 97; 49; 33]))
  ∧ ∃ payload, encode_b64_emoji utf8 [97; 97; 49; 33] = Success payload
               ∧ decode_b64_emoji utf8 payload = Success [97; 97; 49; 33].
Proof.
  assert (H1 : str_encode utf8 [97; 97; 49; 33] = Some [97; 97; 49; 33]) by reflexivity.
  assert (H2 : Forall (λ ch, ch ∉ repeated_b64_chars) (b64encode [97; 97; 49; 33]))
    by run_decide.
  split; [done|]. exact (base64_round_trip_off_repeats utf8 _ _ H1 H2).
Defined.
